(** * BigNumbers.js: an arbitrary-range decimal type

    A shallow embedding of [class BigNum] of [src/BigNumbers.js] and the
    properties of its construction, parsing, arithmetic, comparison and
    formatting.

    Modelling conventions.
    - A JS [BigInt] is a [Z]; [/] and [%] on BigInt truncate towards zero,
      so they are [Z.quot] and [Z.rem].
    - A JS [Number] that holds an integer (exponents, signs, digit counts) is
      a [Z].  Double arithmetic on integers is exact below 2^53, which
      covers every exponent an object holds (the constructor reduces the
      exponent to 32 bits before anything is added to it); an exponent
      written with more digits than that in the text given to [from] is
      rounded by [parseInt] before it reaches the constructor, which the
      model leaves out.  The bitwise operators [|], [&] and [>>] first apply
      ToInt32, written out below.
    - A JS string is a [list ascii]: a sequence of code units in 0..255.
    - A thrown [Error] is the [Err] case of [result]. *)

From Stdlib Require Import ZArith List Ascii String Bool Lia.
Import ListNotations.

Local Open Scope Z_scope.

(** ** Numbers *)

(** ToInt32 of ECMAScript on an integer-valued Number: reduction modulo 2^32
    into [-2^31, 2^31).  It is what [x | 0], [x & 1] and [x >> 1] apply to
    their left operand. *)
Definition ToInt32 (x : Z) : Z := (x + 2 ^ 31) mod 2 ^ 32 - 2 ^ 31.

(** ** The representation: value = sign * coefficient * 10^exponent *)

Record BigNum : Type := mkBigNum {
  coefficient : Z;
  exponent : Z;
  sign : Z
}.

(** [_normalize]'s loop
    [while (coefficient % 10n === 0n) { coefficient /= 10n; exponent += 1; }]
    on the pair (coefficient, exponent).  The loop is only entered with a
    nonzero coefficient; [fuel] bounds the number of iterations, and
    [strip_zeros_exit] below shows that the bound [_normalize] passes is never
    reached: the loop leaves by its own condition. *)
Fixpoint strip_zeros (fuel : nat) (c e : Z) : Z * Z :=
  match fuel with
  | O => (c, e)
  | S fuel' =>
      if Z.rem c 10 =? 0 then strip_zeros fuel' (Z.quot c 10) (e + 1)
      else (c, e)
  end.

(** An iteration divides the magnitude by ten, so the number of binary digits
    of the coefficient bounds the number of iterations. *)
Definition strip_fuel (c : Z) : nat := S (Z.to_nat (Z.log2 (Z.abs c))).

Definition _normalize (x : BigNum) : BigNum :=
  if coefficient x =? 0 then mkBigNum 0 0 1
  else
    let '(c, e) := strip_zeros (strip_fuel (coefficient x)) (coefficient x) (exponent x) in
    if c <? 0 then mkBigNum (- c) e (-1) else mkBigNum c e (sign x).

(** [constructor(coefficient, exponent, sign)]: the three field assignments,
    then [_normalize]. *)
Definition BigNum_fields (c e s : Z) : BigNum :=
  mkBigNum c (ToInt32 e) (if c =? 0 then 1 else if s =? -1 then -1 else 1).

Definition new_BigNum (c e s : Z) : BigNum := _normalize (BigNum_fields c e s).

(** [static ZERO = new BigNum(0n, 0, 1)] *)
Definition ZERO : BigNum := new_BigNum 0 0 1.

(** ** Canonical form (the invariants of the data model) *)

Definition canonical_zero (x : BigNum) : Prop :=
  coefficient x = 0 -> exponent x = 0 /\ sign x = 1.

Definition canonical_nonzero (x : BigNum) : Prop :=
  coefficient x <> 0 -> 0 < coefficient x /\ Z.rem (coefficient x) 10 <> 0.

Definition canonical (x : BigNum) : Prop :=
  canonical_zero x /\ canonical_nonzero x /\ (sign x = 1 \/ sign x = -1).

(** Number of trailing decimal zeros the loop strips. *)
Definition stripped (c : Z) : Z := snd (strip_zeros (strip_fuel c) c 0).

(** ** Errors *)

(** Every failure of the class is a thrown [Error]; they differ by their
    message.  [RangeError] is the engine's own error (a negative BigInt
    exponent, a negative [String.prototype.repeat] count). *)
Inductive error : Type :=
| EmptyInput           (* "Cannot parse empty string" *)
| InvalidFormat        (* "Invalid numeric string: ..." *)
| DivisionByZeroError  (* "Division by zero" *)
| InvalidExponentError (* "pow: exponent must be integer" *)
| RangeError.

Inductive result (A : Type) : Type :=
| Ok (a : A)
| Err (e : error).
Arguments Ok {A} a.
Arguments Err {A} e.

Definition bind {A B : Type} (r : result A) (k : A -> result B) : result B :=
  match r with
  | Ok a => k a
  | Err e => Err e
  end.

Notation "x <- r ;; k" := (bind r (fun x => k))
  (at level 61, r at next level, right associativity).

(** ** Strings and decimal numerals *)

Definition lit (s : string) : list ascii := list_ascii_of_string s.

Definition code (c : ascii) : Z := Z.of_nat (nat_of_ascii c).

(** [\d] of a JS regular expression: the ten ASCII digits. *)
Definition is_digit (c : ascii) : bool := (48 <=? code c) && (code c <=? 57).

Definition digit_val (c : ascii) : Z := code c - 48.

Definition digit_char (d : Z) : ascii := ascii_of_nat (Z.to_nat (48 + d)).

(** The integer a string of decimal digits denotes: [BigInt(num)] on a digit
    string (and [0n] on the empty string). *)
Fixpoint BigInt_of_digits (l : list ascii) : Z :=
  match l with
  | [] => 0
  | c :: l' => digit_val c * 10 ^ Z.of_nat (List.length l') + BigInt_of_digits l'
  end.

(** Decimal digits of a non-negative integer, most significant first; [fuel]
    bounds the number of digits ([nat_toString_spec] shows that the bound
    [nat_toString] passes is enough: the digits denote the number). *)
Fixpoint digits_acc (fuel : nat) (n : Z) (acc : list ascii) : list ascii :=
  match fuel with
  | O => acc
  | S fuel' =>
      let acc' := digit_char (n mod 10) :: acc in
      if n / 10 =? 0 then acc' else digits_acc fuel' (n / 10) acc'
  end.

Definition nat_toString (n : Z) : list ascii := digits_acc (strip_fuel n) n [].

(** [BigInt.prototype.toString()], and [Number.prototype.toString()] on an
    integer of magnitude below 1e21. *)
Definition toString_int (n : Z) : list ascii :=
  if n <? 0 then "-"%char :: nat_toString (- n) else nat_toString n.

Definition strlen (s : list ascii) : Z := Z.of_nat (List.length s).

(** [String.prototype.slice(begin, end)]: a negative index counts from the
    end, and both are clamped to the string. *)
Definition slice_index (len i : Z) : Z :=
  if i <? 0 then Z.max (len + i) 0 else Z.min i len.

Definition slice (s : list ascii) (b e : Z) : list ascii :=
  let from := slice_index (strlen s) b in
  let to := slice_index (strlen s) e in
  firstn (Z.to_nat (to - from)) (skipn (Z.to_nat from) s).

(** [s.slice(begin)] *)
Definition slice_from (s : list ascii) (b : Z) : list ascii :=
  slice s b (strlen s).

(** ["0".repeat(n)]: throws a RangeError on a negative count. *)
Definition zeros (n : Z) : result (list ascii) :=
  if n <? 0 then Err RangeError else Ok (repeat "0"%char (Z.to_nat n)).

(** [num.indexOf(".")] *)
Fixpoint indexOf (c : ascii) (s : list ascii) : option Z :=
  match s with
  | [] => None
  | d :: s' =>
      if Ascii.eqb d c then Some 0
      else match indexOf c s' with
           | Some i => Some (i + 1)
           | None => None
           end
  end.

(** WhiteSpace and LineTerminator code units below 256: TAB, LF, VT, FF, CR,
    SP and NBSP. *)
Definition is_space (c : ascii) : bool :=
  ((9 <=? code c) && (code c <=? 13)) || (code c =? 32) || (code c =? 160).

Fixpoint trim_start (s : list ascii) : list ascii :=
  match s with
  | [] => []
  | c :: s' => if is_space c then trim_start s' else s
  end.

(** [String.prototype.trim()] *)
Definition trim (s : list ascii) : list ascii :=
  rev (trim_start (rev (trim_start s))).

(** ** Parsing *)

(** The longest run of digits at the head of the string, and what follows. *)
Fixpoint span_digits (s : list ascii) : list ascii * list ascii :=
  match s with
  | [] => ([], [])
  | c :: s' =>
      if is_digit c then let '(ds, r) := span_digits s' in (c :: ds, r)
      else ([], s)
  end.

Definition is_sign (c : ascii) : bool :=
  Ascii.eqb c "+"%char || Ascii.eqb c "-"%char.

(** Group 1, [( [+-] )?]. *)
Definition match_sign (s : list ascii) : option ascii * list ascii :=
  match s with
  | c :: s' => if is_sign c then (Some c, s') else (None, s)
  | [] => (None, [])
  end.

(** Group 2, [( (?: \d+ ) (?: \. \d* )? | \. \d+ )]: its text and what follows. *)
Definition match_mantissa (s : list ascii) : option (list ascii * list ascii) :=
  let '(int, r) := span_digits s in
  match int with
  | _ :: _ =>
      match r with
      | c :: r' =>
          if Ascii.eqb c "."%char
          then let '(frac, r'') := span_digits r' in Some (int ++ c :: frac, r'')
          else Some (int, r)
      | [] => Some (int, r)
      end
  | [] =>
      match r with
      | c :: r' =>
          if Ascii.eqb c "."%char
          then let '(frac, r'') := span_digits r' in
               match frac with
               | [] => None
               | _ :: _ => Some (c :: frac, r'')
               end
          else None
      | [] => None
      end
  end.

Definition is_exp_marker (c : ascii) : bool :=
  Ascii.eqb c "e"%char || Ascii.eqb c "E"%char.

(** The rest, [(?: [eE] ( [+-]? \d+ ) )? $]: [Some None] when the exponent is
    absent, [Some (Some t)] with the text of group 3 when it is present. *)
Definition match_exponent (s : list ascii) : option (option (list ascii)) :=
  match s with
  | [] => Some None
  | c :: s' =>
      if is_exp_marker c then
        let '(sg, r) := match_sign s' in
        let '(ds, r') := span_digits r in
        match ds, r' with
        | _ :: _, [] => Some (Some s')
        | _, _ => None
        end
      else None
  end.

(** [s.match(re)] for the expression of [from], written here with spaces
    between its parts:
    [^ ( [+-] )? ( (?: \d+ ) (?: \. \d* )? | \. \d+ ) (?: [eE] ( [+-]? \d+ ) )? $].
    The result holds the groups m[1], m[2], m[3] of a match.  What may
    follow a run of digits in this expression never starts with a digit, and
    what may follow the mantissa never starts with a point, so the match is
    unique and is found without backtracking: [regex_match_number_re] shows
    that this matcher succeeds exactly on the strings the expression
    [number_re] matches. *)
Definition regex_match (s : list ascii)
  : option (option ascii * list ascii * option (list ascii)) :=
  let '(m1, r) := match_sign s in
  match match_mantissa r with
  | None => None
  | Some (m2, r') =>
      match match_exponent r' with
      | None => None
      | Some m3 => Some (m1, m2, m3)
      end
  end.

(** [parseInt(t, 10)] on the text of group 3: an optional sign and digits.
    (Exact below 2^53; see the conventions at the head of the file.) *)
Definition parseInt (t : list ascii) : Z :=
  match t with
  | c :: t' =>
      if Ascii.eqb c "-"%char then - BigInt_of_digits t'
      else if Ascii.eqb c "+"%char then BigInt_of_digits t'
      else BigInt_of_digits t
  | [] => 0
  end.

(** [BigNum.from(x)] on a string. *)
Definition from_string (x : list ascii) : result BigNum :=
  let s := trim x in
  match s with
  | [] => Err EmptyInput
  | _ :: _ =>
      match regex_match s with
      | None => Err InvalidFormat
      | Some (m1, num, m3) =>
          let sign :=
            match m1 with
            | Some c => if Ascii.eqb c "-"%char then -1 else 1
            | None => 1
            end in
          let expPart := match m3 with Some t => parseInt t | None => 0 end in
          match indexOf "."%char num with
          | Some idx =>
              let digitsAfter := strlen num - idx - 1 in
              let num' := slice num 0 idx ++ slice_from num (idx + 1) in
              let coeff := match num' with [] => 0 | _ :: _ => BigInt_of_digits num' end in
              let exponent := expPart - digitsAfter in
              Ok (new_BigNum coeff exponent sign)
          | None =>
              let coeff := BigInt_of_digits num in
              let exponent := expPart in
              Ok (new_BigNum coeff exponent sign)
          end
      end
  end.

(** [BigNum.from(x)] on a BigInt. *)
Definition from_bigint (x : Z) : BigNum :=
  new_BigNum x 0 (if x <? 0 then -1 else 1).

Definition parse (s : string) : result BigNum := from_string (lit s).

(** ** Arithmetic

    Every operation starts with [other = BigNum.from(other)], which returns
    its argument when that is a BigNum: the operations below take BigNums. *)

(** [static _align(a, b)]: returns [aCoeff, bCoeff, exponent]. *)
Definition _align (a b : BigNum) : Z * Z * Z :=
  if coefficient a =? 0 then (0, coefficient b * sign b, exponent b)
  else if coefficient b =? 0 then (coefficient a * sign a, 0, exponent a)
  else if exponent a =? exponent b then
    (coefficient a * sign a, coefficient b * sign b, exponent a)
  else if exponent a >? exponent b then
    let diff := exponent a - exponent b in
    let scaledB := coefficient b * 10 ^ diff in
    (coefficient a * sign a, scaledB * sign b, exponent b + diff)
  else
    let diff := exponent b - exponent a in
    let scaledA := coefficient a * 10 ^ diff in
    (scaledA * sign a, coefficient b * sign b, exponent a + diff).

Definition add (this other : BigNum) : BigNum :=
  if coefficient this =? 0 then
    new_BigNum (coefficient other) (exponent other) (sign other)
  else if coefficient other =? 0 then
    new_BigNum (coefficient this) (exponent this) (sign this)
  else
    let '(aC, bC, exp) := _align this other in
    let sum := aC + bC in
    if sum =? 0 then ZERO
    else
      let sign := if sum <? 0 then -1 else 1 in
      new_BigNum (if sign =? -1 then - sum else sum) exp sign.

(** The operand [sub] builds: [new BigNum(other.coefficient, other.exponent,
    -other.sign)]. *)
Definition negate (other : BigNum) : BigNum :=
  new_BigNum (coefficient other) (exponent other) (- sign other).

Definition sub (this other : BigNum) : BigNum := add this (negate other).

Definition mul (this other : BigNum) : BigNum :=
  if (coefficient this =? 0) || (coefficient other =? 0) then ZERO
  else
    let coeff := coefficient this * coefficient other in
    let exponent := exponent this + exponent other in
    let sign := sign this * sign other in
    new_BigNum coeff exponent sign.

(** [BigInt(10) ** BigInt(n)]: a RangeError on a negative exponent. *)
Definition pow10 (n : Z) : result Z :=
  if n <? 0 then Err RangeError else Ok (10 ^ n).

Definition div (this other : BigNum) (precision : Z) : result BigNum :=
  if coefficient other =? 0 then Err DivisionByZeroError
  else if coefficient this =? 0 then Ok ZERO
  else
    let scale := precision + 5 in
    scalePow <- pow10 scale ;;
    let numerator := coefficient this * scalePow in
    let quotient := Z.quot numerator (coefficient other) in
    let exponent := exponent this - exponent other - scale in
    let sign := sign this * sign other in
    let totalDigits := strlen (toString_int quotient) in
    if totalDigits >? precision then
      let drop := totalDigits - precision in
      divisor <- pow10 drop ;;
      let remainder := Z.rem quotient divisor in
      let q := Z.quot quotient divisor in
      let q := if remainder * 2 >=? divisor then q + 1 else q in
      Ok (new_BigNum q (exponent + drop) sign)
    else Ok (new_BigNum quotient exponent sign).

(** The argument [n] of [pow]: a Number that is an integer, or one for which
    [Number.isInteger] is false (a fraction, NaN, an infinity, or a value
    that is not a Number at all). *)
Inductive number : Type :=
| Integer (n : Z)
| NonInteger.

(** The loop of [pow],
    [while (exp > 0) { if (exp & 1) res = res.mul(base);
                       base = base.mul(base); exp >>= 1; }],
    on the state (res, base, exp).  [&] and [>>] work on ToInt32 of [exp], so
    [exp] is below 2^30 after the first iteration and halves afterwards:
    [pow_loop_exit] shows that 32 iterations always reach [exp <= 0]. *)
Fixpoint pow_loop (fuel : nat) (res base : BigNum) (exp : Z)
  : BigNum * BigNum * Z :=
  match fuel with
  | O => (res, base, exp)
  | S fuel' =>
      if exp >? 0 then
        let res' := if Z.land (ToInt32 exp) 1 =? 0 then res else mul res base in
        let base' := mul base base in
        pow_loop fuel' res' base' (Z.shiftr (ToInt32 exp) 1)
      else (res, base, exp)
  end.

(** The branch [n > 0] of [pow]. *)
Definition pow_positive (this : BigNum) (n : Z) : BigNum :=
  let res := new_BigNum 1 0 1 in
  let base := new_BigNum (coefficient this) (exponent this) (sign this) in
  let '(res', _, _) := pow_loop 32 res base n in
  res'.

(** [BigNum.from(1)]: the Number 1 goes through its text, "1". *)
Definition from_one : result BigNum := from_string (lit "1").

Definition pow (this : BigNum) (n : number) (precision : Z) : result BigNum :=
  match n with
  | NonInteger => Err InvalidExponentError
  | Integer n =>
      if n =? 0 then Ok (new_BigNum 1 0 1)
      else if n >? 0 then Ok (pow_positive this n)
      else
        let positive := pow_positive this (- n) in
        one <- from_one ;;
        div one positive precision
  end.

(** ** Comparison *)

Definition cmp (this other : BigNum) : Z :=
  if (coefficient this =? 0) && (coefficient other =? 0) then 0
  else if negb (sign this =? sign other) then
    (if sign this >? sign other then 1 else -1)
  else
    let '(aC, bC, _) := _align this other in
    if aC =? bC then 0
    else
      let cmp := if aC >? bC then 1 else -1 in
      if sign this =? 1 then cmp else - cmp.

(** The predicates derived from [cmp], in a module of their own: their
    names are those of the relations of the standard library. *)
Module Derived.

Definition eq (this other : BigNum) : bool := cmp this other =? 0.

Definition lt (this other : BigNum) : bool := cmp this other <? 0.

Definition lte (this other : BigNum) : bool := cmp this other <=? 0.

Definition gt (this other : BigNum) : bool := cmp this other >? 0.

Definition gte (this other : BigNum) : bool := cmp this other >=? 0.

End Derived.

(** ** Formatting

    The coefficient of a BigNum is never negative (see [new_BigNum_canonical]),
    so [coefficient.toString()] is a string of digits. *)

(** [(this.sign < 0 ? "-" : "")] *)
Definition sign_prefix (x : BigNum) : list ascii :=
  if sign x <? 0 then ["-"%char] else [].

(** [d[0] + (d.length > 1 ? "." + d.slice(1) : "")], for the text [d] of a
    BigInt, which is never empty. *)
Definition mantissa (d : list ascii) : list ascii :=
  match d with
  | [] => []
  | c :: [] => [c]
  | c :: rest => c :: "."%char :: rest
  end.

(** ["e" + (exponent >= 0 ? "+" : "") + exponent] *)
Definition exponent_suffix (exponent : Z) : list ascii :=
  "e"%char :: (if exponent >=? 0 then ["+"%char] else []) ++ toString_int exponent.

(** [rest[0] >= '5'] *)
Definition rounds_up (rest : list ascii) : bool :=
  match rest with
  | c :: _ => code "5"%char <=? code c
  | [] => false
  end.

Definition toString (x : BigNum) (significant : Z) : list ascii :=
  if coefficient x =? 0 then lit "0"
  else
    let coeffStr := toString_int (coefficient x) in
    let totalDigits := strlen coeffStr in
    let exponent := exponent x + (totalDigits - 1) in
    if totalDigits <=? significant then
      sign_prefix x ++ mantissa coeffStr ++ exponent_suffix exponent
    else
      let keep := significant in
      let left := slice coeffStr 0 keep in
      let rest := slice_from coeffStr keep in
      let rounded := BigInt_of_digits left in
      let rounded := if rounds_up rest then rounded + 1 else rounded in
      let roundedStr := toString_int rounded in
      if strlen roundedStr >? keep then
        let adjExp := exponent + 1 in
        sign_prefix x ++ mantissa roundedStr ++ exponent_suffix adjExp
      else
        sign_prefix x ++ mantissa roundedStr ++ exponent_suffix exponent.

Definition toFixed (x : BigNum) (decimals : Z) : result (list ascii) :=
  if coefficient x =? 0 then
    zd <- zeros decimals ;;
    Ok (lit "0." ++ zd)
  else
    let coeffStr := toString_int (coefficient x) in
    let shift := exponent x in
    if shift >=? 0 then
      zs <- zeros shift ;;
      let intStr := coeffStr ++ zs in
      zd <- zeros decimals ;;
      Ok (sign_prefix x ++ intStr ++ lit "." ++ zd)
    else
      let absShift := - shift in
      if absShift <? strlen coeffStr then
        let idx := strlen coeffStr - absShift in
        let intPart := slice coeffStr 0 idx in
        pad <- zeros (Z.max 0 (decimals - (strlen coeffStr - idx))) ;;
        let fracPart := slice_from coeffStr idx ++ pad in
        let fracPart := slice fracPart 0 decimals in
        Ok (sign_prefix x ++ intPart ++ lit "." ++ fracPart)
      else
        zeros_ <- zeros (absShift - strlen coeffStr) ;;
        pad <- zeros (Z.max 0 (decimals - (strlen zeros_ + strlen coeffStr))) ;;
        let fracPart := zeros_ ++ coeffStr ++ pad in
        Ok (sign_prefix x ++ lit "0." ++ slice fracPart 0 decimals).

(** ** The regular expression of [from], as an expression

    Regular expressions over code units and the strings they match as a
    whole (the expression of [from] is anchored by [^] and [$]). *)

Inductive regex : Type :=
| Eps
| Class (p : ascii -> bool)
| Seq (r1 r2 : regex)
| Alt (r1 r2 : regex)
| Star (r : regex).

(** [r?] and [r+] *)
Definition Opt (r : regex) : regex := Alt r Eps.
Definition Plus (r : regex) : regex := Seq r (Star r).

Inductive matches : regex -> list ascii -> Prop :=
| matches_eps : matches Eps []
| matches_class p c : p c = true -> matches (Class p) [c]
| matches_seq r1 r2 s1 s2 :
    matches r1 s1 -> matches r2 s2 -> matches (Seq r1 r2) (s1 ++ s2)
| matches_alt_l r1 r2 s : matches r1 s -> matches (Alt r1 r2) s
| matches_alt_r r1 r2 s : matches r2 s -> matches (Alt r1 r2) s
| matches_star_nil r : matches (Star r) []
| matches_star_cons r s1 s2 :
    matches r s1 -> matches (Star r) s2 -> matches (Star r) (s1 ++ s2).

Definition is_point (c : ascii) : bool := Ascii.eqb c "."%char.

(** [^ ([+-])? ( (?:\d+) (?:\.\d* )? | \.\d+ ) (?: [eE] ([+-]? \d+) )? $] *)
Definition number_re : regex :=
  Seq (Opt (Class is_sign))
 (Seq (Alt (Seq (Plus (Class is_digit))
                (Opt (Seq (Class is_point) (Star (Class is_digit)))))
           (Seq (Class is_point) (Plus (Class is_digit))))
      (Opt (Seq (Class is_exp_marker)
                (Seq (Opt (Class is_sign)) (Plus (Class is_digit)))))).

(** ** The grammar of numeric text, as the specification words it

    An optional leading [+] or [-]; then digits, or digits with a point in
    them or before them, with at least one digit on one side of the point;
    then an optional exponent: [e] or [E], an optional sign, digits. *)

Definition all_digits (l : list ascii) : Prop :=
  Forall (fun c => is_digit c = true) l.

Inductive optional_sign : list ascii -> Prop :=
| sign_absent : optional_sign []
| sign_present c : is_sign c = true -> optional_sign [c].

Inductive mantissa_text : list ascii -> Prop :=
| mantissa_digits ds :
    ds <> [] -> all_digits ds -> mantissa_text ds
| mantissa_point int frac :
    all_digits int -> all_digits frac -> int <> [] \/ frac <> [] ->
    mantissa_text (int ++ "."%char :: frac).

Inductive optional_exponent : list ascii -> Prop :=
| exponent_absent : optional_exponent []
| exponent_present m sg ds :
    is_exp_marker m = true -> optional_sign sg -> ds <> [] -> all_digits ds ->
    optional_exponent (m :: sg ++ ds).

Definition numeric_text (s : list ascii) : Prop :=
  exists sg m ex,
    s = sg ++ m ++ ex /\
    optional_sign sg /\ mantissa_text m /\ optional_exponent ex.

(** The string does not go on with a digit. *)
Definition no_digit_ahead (s : list ascii) : Prop :=
  match s with
  | [] => True
  | c :: _ => is_digit c = false
  end.

(** ** Fixed-point text, as the specification words it *)

(** The magnitude of [x] with its decimal point moved [d] places to the
    right, and what is left of the point then cut off: the integer part of
    |x| * 10^d. *)
Definition scaled_magnitude (x : BigNum) (d : Z) : Z :=
  if 0 <=? exponent x + d then coefficient x * 10 ^ (exponent x + d)
  else coefficient x / 10 ^ (- (exponent x + d)).

(** A numeral without redundant zeros: "0" itself, or one that starts with
    another digit. *)
Definition no_leading_zero (l : list ascii) : Prop :=
  l = ["0"%char] \/ exists c t, l = c :: t /\ c <> "0"%char.

(** ** The value of a BigNum *)

(** The value sign * coefficient * 10^exponent in units of 10^k: an integer
    for every [k] at or below the exponent. *)
Definition scaled_value (x : BigNum) (k : Z) : Z :=
  sign x * coefficient x * 10 ^ (exponent x - k).

(** ** Powers *)

(** The [k]-th power of [a] as a triple: the power of the coefficient, [k]
    times the exponent reduced to 32 bits, the power of the sign. *)
Definition power_of (a : BigNum) (k : Z) : BigNum :=
  mkBigNum (coefficient a ^ k) (ToInt32 (k * exponent a)) (sign a ^ k).

(** ** Division *)

(** The quotient [div] computes before it rounds,
    [this.coefficient * 10^(precision + 5) / other.coefficient], and the
    number of its low digits that rounding then drops. *)
Definition raw_quotient (a b : BigNum) (precision : Z) : Z :=
  Z.quot (coefficient a * 10 ^ (precision + 5)) (coefficient b).

Definition dropped_digits (a b : BigNum) (precision : Z) : Z :=
  Z.max 0 (strlen (toString_int (raw_quotient a b precision)) - precision).

(** ** Statements about results *)

(** [P] holds of the value a call returns, when it returns one. *)
Definition on_result {A : Type} (P : A -> Prop) (r : result A) : Prop :=
  match r with
  | Ok a => P a
  | Err _ => True
  end.

(** The exponent fits the 32 bits the constructor keeps. *)
Definition int32_exponent (x : BigNum) : Prop :=
  - 2 ^ 31 <= exponent x < 2 ^ 31.

(** * Properties *)

(** ** Lemmas on ToInt32 *)

Lemma ToInt32_range x : - 2 ^ 31 <= ToInt32 x < 2 ^ 31.
Proof.
  unfold ToInt32.
  pose proof (Z.mod_pos_bound (x + 2 ^ 31) (2 ^ 32) ltac:(lia)). lia.
Qed.

Lemma ToInt32_small x : - 2 ^ 31 <= x < 2 ^ 31 -> ToInt32 x = x.
Proof.
  intros H. unfold ToInt32. rewrite Z.mod_small by lia. lia.
Qed.

Lemma ToInt32_congr x : (ToInt32 x - x) mod 2 ^ 32 = 0.
Proof.
  unfold ToInt32. rewrite (Z.mod_eq (x + 2 ^ 31)) by lia.
  set (q := (x + 2 ^ 31) / 2 ^ 32).
  replace (x + 2 ^ 31 - 2 ^ 32 * q - 2 ^ 31 - x) with ((- q) * 2 ^ 32) by lia.
  apply Z.mod_mul. lia.
Qed.

Lemma ToInt32_add_l x y : ToInt32 (ToInt32 x + y) = ToInt32 (x + y).
Proof.
  unfold ToInt32.
  replace ((x + 2 ^ 31) mod 2 ^ 32 - 2 ^ 31 + y + 2 ^ 31)
    with ((x + 2 ^ 31) mod 2 ^ 32 + y) by lia.
  rewrite Zplus_mod_idemp_l. do 2 f_equal. lia.
Qed.

Lemma ToInt32_add_r x y : ToInt32 (x + ToInt32 y) = ToInt32 (x + y).
Proof. rewrite Z.add_comm, ToInt32_add_l. f_equal. lia. Qed.

Lemma ToInt32_idem x : ToInt32 (ToInt32 x) = ToInt32 x.
Proof. apply ToInt32_small, ToInt32_range. Qed.

Lemma ToInt32_decomp x : exists k, ToInt32 x = x + 2 ^ 32 * k.
Proof.
  exists (- ((x + 2 ^ 31) / 2 ^ 32)).
  unfold ToInt32. rewrite Z.mod_eq by lia. lia.
Qed.

Lemma ToInt32_shift x k : ToInt32 (x + 2 ^ 32 * k) = ToInt32 x.
Proof.
  unfold ToInt32.
  replace (x + 2 ^ 32 * k + 2 ^ 31) with (x + 2 ^ 31 + k * 2 ^ 32) by lia.
  now rewrite Z.mod_add by lia.
Qed.

(** ** Lemmas on the normalization loop *)

Lemma strip_zeros_exit fuel : forall c e,
  c <> 0 -> Z.abs c < 2 ^ Z.of_nat fuel ->
  Z.rem (fst (strip_zeros fuel c e)) 10 <> 0.
Proof.
  induction fuel as [|fuel IH]; intros c e Hc Hb.
  - simpl in Hb. lia.
  - cbn [strip_zeros]. destruct (Z.rem c 10 =? 0) eqn:Hr.
    + apply Z.eqb_eq in Hr.
      pose proof (Z.quot_rem' c 10) as Hq. rewrite Hr in Hq.
      apply IH; [lia|].
      rewrite Nat2Z.inj_succ, Z.pow_succ_r in Hb by lia. lia.
    + apply Z.eqb_neq in Hr. exact Hr.
Qed.

Lemma strip_fuel_enough c : c <> 0 -> Z.abs c < 2 ^ Z.of_nat (strip_fuel c).
Proof.
  intros Hc. unfold strip_fuel.
  rewrite Nat2Z.inj_succ, Z2Nat.id by apply Z.log2_nonneg.
  apply Z.log2_spec. lia.
Qed.

Lemma strip_zeros_nonzero fuel : forall c e,
  c <> 0 -> fst (strip_zeros fuel c e) <> 0.
Proof.
  induction fuel as [|fuel IH]; intros c e Hc; [exact Hc|].
  cbn [strip_zeros]. destruct (Z.rem c 10 =? 0) eqn:Hr; [|exact Hc].
  apply Z.eqb_eq in Hr. apply IH.
  pose proof (Z.quot_rem' c 10) as Hq. lia.
Qed.

Lemma strip_zeros_fixed fuel c e :
  Z.rem c 10 <> 0 -> strip_zeros fuel c e = (c, e).
Proof.
  intros H. destruct fuel; [reflexivity|].
  cbn [strip_zeros]. apply Z.eqb_neq in H. now rewrite H.
Qed.

Lemma strip_zeros_shift fuel : forall c e,
  strip_zeros fuel c e =
  (fst (strip_zeros fuel c 0), e + snd (strip_zeros fuel c 0)).
Proof.
  induction fuel as [|fuel IH]; intros c e; cbn [strip_zeros].
  - cbn. f_equal. lia.
  - destruct (Z.rem c 10 =? 0).
    + rewrite (IH _ (e + 1)), (IH _ (0 + 1)). cbn [fst snd]. f_equal. lia.
    + cbn. f_equal. lia.
Qed.

Lemma strip_zeros_count_nonneg fuel : forall c e,
  e <= snd (strip_zeros fuel c e).
Proof.
  induction fuel as [|fuel IH]; intros c e; cbn [strip_zeros]; [cbn; lia|].
  destruct (Z.rem c 10 =? 0); [|cbn; lia].
  specialize (IH (Z.quot c 10) (e + 1)). lia.
Qed.

(** ** Construction yields canonical values *)

Lemma _normalize_nonzero x :
  coefficient x <> 0 ->
  _normalize x =
    let c := fst (strip_zeros (strip_fuel (coefficient x)) (coefficient x) 0) in
    let e := exponent x + stripped (coefficient x) in
    if c <? 0 then mkBigNum (- c) e (-1) else mkBigNum c e (sign x).
Proof.
  intros Hc. unfold _normalize, stripped.
  apply Z.eqb_neq in Hc. rewrite Hc.
  rewrite (strip_zeros_shift _ _ (exponent x)). reflexivity.
Qed.

Lemma _normalize_canonical x :
  sign x = 1 \/ sign x = -1 -> canonical (_normalize x).
Proof.
  intros Hs. unfold canonical, canonical_zero, canonical_nonzero.
  destruct (Z.eq_dec (coefficient x) 0) as [Hc|Hc].
  - unfold _normalize. apply Z.eqb_eq in Hc. rewrite Hc. cbn. lia.
  - rewrite _normalize_nonzero by exact Hc. cbv zeta.
    pose proof (strip_zeros_exit _ _ 0 Hc (strip_fuel_enough _ Hc)) as Hr.
    pose proof (strip_zeros_nonzero (strip_fuel (coefficient x)) _ 0 Hc) as Hn.
    set (c := fst _) in *.
    destruct (c <? 0) eqn:Hneg; cbn [coefficient exponent sign].
    + apply Z.ltb_lt in Hneg. rewrite Z.rem_opp_l by lia. lia.
    + apply Z.ltb_ge in Hneg. lia.
Qed.

Lemma BigNum_fields_sign c e s :
  sign (BigNum_fields c e s) = 1 \/ sign (BigNum_fields c e s) = -1.
Proof.
  cbn. destruct (c =? 0); [now left|]. destruct (s =? -1); [now right|now left].
Qed.

Lemma new_BigNum_canonical c e s : canonical (new_BigNum c e s).
Proof. apply _normalize_canonical, BigNum_fields_sign. Qed.

Lemma ZERO_canonical : canonical ZERO.
Proof. apply new_BigNum_canonical. Qed.

(** On a positive coefficient without trailing zero the constructor only
    reduces the exponent. *)
Lemma new_BigNum_fixed c e s :
  Z.rem c 10 <> 0 -> 0 < c -> s = 1 \/ s = -1 ->
  new_BigNum c e s = mkBigNum c (ToInt32 e) s.
Proof.
  intros Hr Hc Hs. unfold new_BigNum, _normalize, BigNum_fields.
  cbn [coefficient exponent sign].
  assert ((c =? 0) = false) as -> by (apply Z.eqb_neq; lia).
  rewrite strip_zeros_fixed by exact Hr.
  assert ((c <? 0) = false) as -> by (apply Z.ltb_ge; lia).
  f_equal. destruct Hs as [-> | ->]; reflexivity.
Qed.

Lemma add_canonical a b : canonical (add a b).
Proof.
  unfold add.
  destruct (coefficient a =? 0); [apply new_BigNum_canonical|].
  destruct (coefficient b =? 0); [apply new_BigNum_canonical|].
  destruct (_align a b) as [[aC bC] ex].
  destruct (aC + bC =? 0); [apply ZERO_canonical|apply new_BigNum_canonical].
Qed.

Lemma mul_canonical a b : canonical (mul a b).
Proof.
  unfold mul.
  destruct (_ || _); [apply ZERO_canonical|apply new_BigNum_canonical].
Qed.

Lemma div_canonical a b p r : div a b p = Ok r -> canonical r.
Proof.
  unfold div.
  destruct (coefficient b =? 0); [discriminate|].
  destruct (coefficient a =? 0).
  { intros [= <-]. apply ZERO_canonical. }
  destruct (pow10 (p + 5)) as [sp|]; cbn [bind]; [|discriminate].
  destruct (_ >? p).
  - destruct (pow10 _) as [dv|]; cbn [bind]; [|discriminate].
    intros [= <-]. apply new_BigNum_canonical.
  - intros [= <-]. apply new_BigNum_canonical.
Qed.

Lemma from_string_canonical s r : from_string s = Ok r -> canonical r.
Proof.
  unfold from_string.
  destruct (trim s); [discriminate|].
  destruct (regex_match _) as [[[m1 m2] m3]|]; [|discriminate].
  destruct (indexOf _ _); intros [= <-]; apply new_BigNum_canonical.
Qed.

Lemma pow_loop_canonical fuel : forall res base ex,
  canonical res -> canonical (fst (fst (pow_loop fuel res base ex))).
Proof.
  induction fuel as [|fuel IH]; intros res base ex Hres; [exact Hres|].
  cbn [pow_loop]. destruct (ex >? 0); [|exact Hres].
  apply IH. destruct (_ =? 0); [exact Hres|apply mul_canonical].
Qed.

Lemma pow_positive_canonical a n : canonical (pow_positive a n).
Proof.
  unfold pow_positive.
  pose proof (pow_loop_canonical 32 (new_BigNum 1 0 1)
                (new_BigNum (coefficient a) (exponent a) (sign a)) n
                (new_BigNum_canonical _ _ _)) as H.
  destruct (pow_loop 32 _ _ n) as [[r b] ex]. exact H.
Qed.

Lemma pow_canonical a n p r : pow a n p = Ok r -> canonical r.
Proof.
  unfold pow. destruct n as [n|]; [|discriminate].
  destruct (n =? 0).
  { intros [= <-]. apply new_BigNum_canonical. }
  destruct (n >? 0).
  { intros [= <-]. apply pow_positive_canonical. }
  destruct from_one as [o|]; cbn [bind]; [|discriminate].
  apply div_canonical.
Qed.

(** ** The loop of [pow] terminates *)

Lemma shiftr_1_half x : Z.shiftr x 1 = x / 2.
Proof. rewrite Z.shiftr_div_pow2 by lia. reflexivity. Qed.

Lemma pow_loop_S fuel res base ex :
  pow_loop (S fuel) res base ex =
  if ex >? 0 then
    pow_loop fuel (if Z.land (ToInt32 ex) 1 =? 0 then res else mul res base)
             (mul base base) (Z.shiftr (ToInt32 ex) 1)
  else (res, base, ex).
Proof. reflexivity. Qed.

Lemma pow_loop_exit_small fuel : forall res base ex,
  (fuel <= 31)%nat -> ex < 2 ^ Z.of_nat fuel ->
  snd (pow_loop fuel res base ex) <= 0.
Proof.
  induction fuel as [|fuel IH]; intros res base ex Hf Hex.
  - cbn in *. lia.
  - rewrite pow_loop_S. destruct (Z.gtb_spec ex 0) as [Hpos|Hpos]; [|cbn [snd]; lia].
    apply IH; [lia|].
    assert (2 ^ Z.of_nat (S fuel) <= 2 ^ 31)
      by (apply Z.pow_le_mono_r; lia).
    rewrite ToInt32_small by lia.
    rewrite shiftr_1_half.
    rewrite Nat2Z.inj_succ, Z.pow_succ_r in Hex by lia.
    apply Z.div_lt_upper_bound; lia.
Qed.

Lemma pow_loop_exit res base n : snd (pow_loop 32 res base n) <= 0.
Proof.
  rewrite pow_loop_S.
  destruct (Z.gtb_spec n 0) as [Hpos|Hpos]; [|cbn [snd]; lia].
  apply pow_loop_exit_small; [lia|].
  rewrite shiftr_1_half.
  pose proof (ToInt32_range n).
  apply Z.div_lt_upper_bound; [lia|]. change (Z.of_nat 31) with 31. lia.
Qed.

(** ** Products of coefficients *)

Lemma last_digit_cases c :
  0 < c -> Z.rem c 10 <> 0 ->
  exists r, c mod 10 = r /\
    (r = 1 \/ r = 2 \/ r = 3 \/ r = 4 \/ r = 5 \/ r = 6 \/ r = 7 \/ r = 8 \/ r = 9).
Proof.
  intros Hc Hr. rewrite Z.rem_mod_nonneg in Hr by lia.
  pose proof (Z.mod_pos_bound c 10 ltac:(lia)).
  exists (c mod 10). split; [reflexivity|lia].
Qed.

Lemma square_last_digit c :
  0 < c -> Z.rem c 10 <> 0 -> Z.rem (c * c) 10 <> 0.
Proof.
  intros Hc Hr. destruct (last_digit_cases c Hc Hr) as (r & Hm & Hcases).
  rewrite Z.rem_mod_nonneg by nia.
  rewrite Z.mul_mod, Hm by lia.
  repeat (destruct Hcases as [-> | Hcases]; [vm_compute; intros E; discriminate E|]).
  rewrite Hcases. vm_compute; intros E; discriminate E.
Qed.

Lemma cube_last_digit c :
  0 < c -> Z.rem c 10 <> 0 -> Z.rem (c * (c * c)) 10 <> 0.
Proof.
  intros Hc Hr. destruct (last_digit_cases c Hc Hr) as (r & Hm & Hcases).
  rewrite Z.rem_mod_nonneg by nia.
  rewrite Z.mul_mod, (Z.mul_mod c c), Hm by lia.
  repeat (destruct Hcases as [-> | Hcases]; [vm_compute; intros E; discriminate E|]).
  rewrite Hcases. vm_compute; intros E; discriminate E.
Qed.

Lemma sign_square s : s = 1 \/ s = -1 -> s * s = 1.
Proof. intros [-> | ->]; reflexivity. Qed.

Lemma canonical_cases a :
  canonical a ->
  a = mkBigNum 0 0 1 \/
  (0 < coefficient a /\ Z.rem (coefficient a) 10 <> 0 /\
   (sign a = 1 \/ sign a = -1)).
Proof.
  destruct a as [c e s]. unfold canonical, canonical_zero, canonical_nonzero.
  cbn. intros (Hz & Hnz & Hs).
  destruct (Z.eq_dec c 0) as [-> | Hc].
  - left. destruct Hz as [-> ->]; reflexivity.
  - right. destruct (Hnz Hc). auto.
Qed.

(** [mul] on nonzero canonical operands whose product has no trailing
    zero. *)
Lemma mul_fixed a b :
  0 < coefficient a -> 0 < coefficient b ->
  Z.rem (coefficient a * coefficient b) 10 <> 0 ->
  sign a * sign b = 1 \/ sign a * sign b = -1 ->
  mul a b = mkBigNum (coefficient a * coefficient b)
                     (ToInt32 (exponent a + exponent b)) (sign a * sign b).
Proof.
  intros Ha Hb Hr Hs. unfold mul.
  assert ((coefficient a =? 0) = false) as -> by (apply Z.eqb_neq; lia).
  assert ((coefficient b =? 0) = false) as -> by (apply Z.eqb_neq; lia).
  cbn [orb]. apply new_BigNum_fixed; [assumption|nia|assumption].
Qed.

(** ** What the constructor stores *)

Lemma strip_zeros_value fuel : forall c e,
  c = fst (strip_zeros fuel c e) * 10 ^ (snd (strip_zeros fuel c e) - e).
Proof.
  induction fuel as [|fuel IH]; intros c e; cbn [strip_zeros].
  - cbn [fst snd]. rewrite Z.sub_diag. cbn. lia.
  - destruct (Z.rem c 10 =? 0) eqn:Hr.
    + apply Z.eqb_eq in Hr.
      pose proof (Z.quot_rem' c 10) as Hq. rewrite Hr in Hq.
      pose proof (strip_zeros_count_nonneg fuel (Z.quot c 10) (e + 1)) as Hk.
      specialize (IH (Z.quot c 10) (e + 1)).
      set (r := strip_zeros fuel (Z.quot c 10) (e + 1)) in *.
      replace (snd r - e) with (Z.succ (snd r - (e + 1))) by lia.
      rewrite Z.pow_succ_r by lia. lia.
    + cbn [fst snd]. rewrite Z.sub_diag. cbn. lia.
Qed.

Lemma stripped_nonneg c : 0 <= stripped c.
Proof. apply strip_zeros_count_nonneg. Qed.

Lemma new_BigNum_exponent c e s :
  exponent (new_BigNum c e s) = if c =? 0 then 0 else ToInt32 e + stripped c.
Proof.
  unfold new_BigNum. destruct (Z.eqb_spec c 0) as [-> | Hc]; [reflexivity|].
  rewrite _normalize_nonzero by exact Hc. cbv zeta.
  cbn [BigNum_fields coefficient exponent].
  destruct (_ <? 0); reflexivity.
Qed.

Lemma new_BigNum_coefficient c e s :
  coefficient (new_BigNum c e s) * 10 ^ stripped c = Z.abs c.
Proof.
  unfold new_BigNum. destruct (Z.eqb_spec c 0) as [-> | Hc]; [reflexivity|].
  rewrite _normalize_nonzero by exact Hc. cbv zeta.
  cbn [BigNum_fields coefficient exponent].
  pose proof (strip_zeros_value (strip_fuel c) c 0) as Hv.
  rewrite Z.sub_0_r in Hv. fold (stripped c) in Hv.
  pose proof (stripped_nonneg c) as Hk.
  assert (0 < 10 ^ stripped c) by (apply Z.pow_pos_nonneg; lia).
  set (c' := fst _) in *.
  destruct (Z.ltb_spec c' 0); cbn [coefficient]; nia.
Qed.

(** ** Failures of [div] and [pow] *)

Lemma pow10_ok n : 0 <= n -> pow10 n = Ok (10 ^ n).
Proof.
  intros Hn. unfold pow10.
  destruct (Z.ltb_spec n 0); [lia|reflexivity].
Qed.

Lemma pow10_err n : n < 0 -> pow10 n = Err RangeError.
Proof.
  intros Hn. unfold pow10.
  destruct (Z.ltb_spec n 0); [reflexivity|lia].
Qed.

Lemma div_by_zero a b p :
  coefficient b = 0 -> div a b p = Err DivisionByZeroError.
Proof. intros Hb. unfold div. now rewrite Hb. Qed.

Lemma div_zero_dividend a b p :
  coefficient b <> 0 -> coefficient a = 0 -> div a b p = Ok ZERO.
Proof.
  intros Hb Ha. unfold div.
  apply Z.eqb_neq in Hb. now rewrite Hb, Ha.
Qed.

Lemma div_negative_scale a b p :
  coefficient b <> 0 -> coefficient a <> 0 -> p < -5 ->
  div a b p = Err RangeError.
Proof.
  intros Hb Ha Hp. unfold div.
  apply Z.eqb_neq in Hb, Ha. rewrite Hb, Ha.
  now rewrite pow10_err by lia.
Qed.

Lemma div_returns a b p :
  coefficient b <> 0 -> -5 <= p -> exists r, div a b p = Ok r.
Proof.
  intros Hb Hp. unfold div.
  apply Z.eqb_neq in Hb. rewrite Hb.
  destruct (coefficient a =? 0); [eauto|].
  rewrite pow10_ok by lia. cbn [bind].
  destruct (Z.gtb_spec (strlen (toString_int
             (Z.quot (coefficient a * 10 ^ (p + 5)) (coefficient b)))) p)
    as [Hgt|Hle]; [|eauto].
  rewrite pow10_ok by lia. cbn [bind]. eauto.
Qed.

Lemma div_error a b p e :
  div a b p = Err e -> e = DivisionByZeroError \/ e = RangeError.
Proof.
  unfold div.
  destruct (coefficient b =? 0); [intros [= <-]; now left|].
  destruct (coefficient a =? 0); [discriminate|].
  unfold pow10 at 1. destruct (p + 5 <? 0); cbn [bind].
  { intros [= <-]. now right. }
  destruct (_ >? p); [|discriminate].
  unfold pow10. destruct (_ <? 0); cbn [bind]; [|discriminate].
  intros [= <-]. now right.
Qed.

Lemma from_one_eq : from_one = Ok (mkBigNum 1 0 1).
Proof. reflexivity. Qed.

(** ** Trimming *)

Lemma trim_start_spec s :
  exists l, s = l ++ trim_start s /\
    Forall (fun c => is_space c = true) l /\
    match trim_start s with [] => True | c :: _ => is_space c = false end.
Proof.
  induction s as [|c s (l & Hs & Hl & Hh)]; cbn [trim_start].
  - exists []. repeat split. constructor.
  - destruct (is_space c) eqn:Hc.
    + exists (c :: l). cbn [app]. rewrite <- Hs.
      repeat split; [constructor; assumption|assumption].
    + exists []. repeat split; [constructor|exact Hc].
Qed.

(** [trim] removes a run of white space at each end, and what is left
    neither starts nor ends with white space. *)
Lemma trim_spec s :
  exists l r, s = l ++ trim s ++ r /\
    Forall (fun c => is_space c = true) l /\
    Forall (fun c => is_space c = true) r /\
    match trim s with [] => True | c :: _ => is_space c = false end /\
    match rev (trim s) with [] => True | c :: _ => is_space c = false end.
Proof.
  unfold trim.
  destruct (trim_start_spec s) as (l & Hs & Hl & Hh).
  destruct (trim_start_spec (rev (trim_start s))) as (r & Hr & Hrs & Hrh).
  set (t := trim_start (rev (trim_start s))) in *.
  assert (Hmid : trim_start s = rev t ++ rev r).
  { rewrite <- rev_app_distr, <- Hr. now rewrite rev_involutive. }
  exists l, (rev r). repeat split.
  - now rewrite <- Hmid.
  - assumption.
  - now apply Forall_rev.
  - rewrite Hmid in Hh. destruct (rev t) as [|c u] eqn:Hu; [exact I|].
    exact Hh.
  - now rewrite rev_involutive.
Qed.

(** ** The regular expression of [from] and the grammar *)

Lemma is_sign_cases c : is_sign c = true -> c = "+"%char \/ c = "-"%char.
Proof.
  unfold is_sign. intros H. apply orb_true_iff in H.
  destruct H as [H|H]; apply Ascii.eqb_eq in H; auto.
Qed.

Lemma is_exp_marker_cases c :
  is_exp_marker c = true -> c = "e"%char \/ c = "E"%char.
Proof.
  unfold is_exp_marker. intros H. apply orb_true_iff in H.
  destruct H as [H|H]; apply Ascii.eqb_eq in H; auto.
Qed.

Lemma digit_not_sign c : is_digit c = true -> is_sign c = false.
Proof.
  intros Hd. destruct (is_sign c) eqn:Hs; [|reflexivity].
  destruct (is_sign_cases c Hs) as [-> | ->]; discriminate Hd.
Qed.

Lemma marker_not_point c :
  is_exp_marker c = true -> Ascii.eqb c "."%char = false.
Proof. intros H. destruct (is_exp_marker_cases c H) as [-> | ->]; reflexivity. Qed.

Lemma marker_not_digit c : is_exp_marker c = true -> is_digit c = false.
Proof. intros H. destruct (is_exp_marker_cases c H) as [-> | ->]; reflexivity. Qed.

Lemma span_digits_spec s : forall ds r,
  span_digits s = (ds, r) -> s = ds ++ r /\ all_digits ds /\ no_digit_ahead r.
Proof.
  induction s as [|c s IH]; intros ds r; cbn [span_digits].
  - intros [= <- <-]. repeat split. constructor.
  - destruct (is_digit c) eqn:Hc.
    + destruct (span_digits s) as [ds' r'].
      intros [= <- <-]. destruct (IH ds' r' eq_refl) as (-> & Hds & Hr).
      repeat split; [constructor; assumption|assumption].
    + intros [= <- <-]. repeat split; [constructor|exact Hc].
Qed.

Lemma span_digits_app ds : forall r,
  all_digits ds -> no_digit_ahead r -> span_digits (ds ++ r) = (ds, r).
Proof.
  induction ds as [|c ds IH]; intros r Hds Hr.
  - destruct r as [|c r]; [reflexivity|].
    cbn in *. now rewrite Hr.
  - inversion Hds as [|? ? Hc Hds']; subst.
    cbn [app span_digits]. rewrite Hc, (IH r Hds' Hr). reflexivity.
Qed.

Lemma match_sign_spec s m1 r :
  match_sign s = (m1, r) ->
  exists sg, s = sg ++ r /\ optional_sign sg.
Proof.
  destruct s as [|c s]; cbn [match_sign].
  - intros [= <- <-]. exists []. split; [reflexivity|constructor].
  - destruct (is_sign c) eqn:Hc; intros [= <- <-].
    + exists [c]. split; [reflexivity|now constructor].
    + exists []. split; [reflexivity|constructor].
Qed.

Lemma match_sign_app sg r :
  optional_sign sg ->
  match r with [] => True | c :: _ => is_sign c = false end ->
  exists m1, match_sign (sg ++ r) = (m1, r).
Proof.
  intros Hsg Hr. destruct Hsg as [|c Hc].
  - destruct r as [|c r]; cbn; [eauto|]. rewrite Hr. eauto.
  - cbn. rewrite Hc. eauto.
Qed.

Lemma match_mantissa_spec s m r :
  match_mantissa s = Some (m, r) -> s = m ++ r /\ mantissa_text m.
Proof.
  unfold match_mantissa.
  destruct (span_digits s) as [int r0] eqn:Hspan.
  destruct (span_digits_spec s int r0 Hspan) as (-> & Hint & Hr0).
  destruct int as [|i0 int].
  - destruct r0 as [|c r0]; [discriminate|].
    destruct (Ascii.eqb_spec c "."%char) as [-> |]; [|discriminate].
    destruct (span_digits r0) as [frac r1] eqn:Hspan'.
    destruct (span_digits_spec r0 frac r1 Hspan') as (-> & Hfrac & Hr1).
    destruct frac as [|f0 frac]; [discriminate|].
    intros [= <- <-]. split; [reflexivity|].
    apply (mantissa_point [] (f0 :: frac)); [constructor|assumption|].
    right. discriminate.
  - destruct r0 as [|c r0].
    + intros [= <- <-]. split; [reflexivity|].
      apply mantissa_digits; [discriminate|assumption].
    + destruct (Ascii.eqb_spec c "."%char) as [-> |].
      * destruct (span_digits r0) as [frac r1] eqn:Hspan'.
        destruct (span_digits_spec r0 frac r1 Hspan') as (-> & Hfrac & Hr1).
        intros [= <- <-]. split.
        { cbn [app]. f_equal. now rewrite <- app_assoc. }
        apply (mantissa_point (i0 :: int) frac); [assumption|assumption|].
        left. discriminate.
      * intros [= <- <-]. split; [reflexivity|].
        apply mantissa_digits; [discriminate|assumption].
Qed.

Lemma match_exponent_spec s m3 :
  match_exponent s = Some m3 -> optional_exponent s.
Proof.
  destruct s as [|c s]; cbn [match_exponent]; [constructor|].
  destruct (is_exp_marker c) eqn:Hc; [|discriminate].
  destruct (match_sign s) as [sg r] eqn:Hsg.
  destruct (match_sign_spec s sg r Hsg) as (sgt & -> & Hsgt).
  destruct (span_digits r) as [ds r'] eqn:Hspan.
  destruct (span_digits_spec r ds r' Hspan) as (-> & Hds & _).
  destruct ds as [|d0 ds]; [discriminate|].
  destruct r' as [|? ?]; [|discriminate].
  intros _. rewrite app_nil_r.
  apply exponent_present; [assumption|assumption|discriminate|assumption].
Qed.

Lemma optional_exponent_head ex :
  optional_exponent ex ->
  no_digit_ahead ex /\
  match ex with [] => True | c :: _ => Ascii.eqb c "."%char = false end.
Proof.
  intros [|m sg ds Hm _ _ _]; cbn; [auto|].
  split; [now apply marker_not_digit|now apply marker_not_point].
Qed.

Lemma match_exponent_complete ex :
  optional_exponent ex -> exists m3, match_exponent ex = Some m3.
Proof.
  intros [|m sg ds Hm Hsg Hne Hds]; cbn [match_exponent]; [eauto|].
  rewrite Hm.
  destruct (match_sign_app sg ds Hsg) as [m1 Hm1].
  { destruct ds as [|d ds]; [exact I|].
    inversion Hds; subst. now apply digit_not_sign. }
  rewrite Hm1.
  pose proof (span_digits_app ds [] Hds I) as Hspan.
  rewrite app_nil_r in Hspan. rewrite Hspan.
  destruct ds; [now contradiction Hne|eauto].
Qed.

Lemma match_mantissa_complete m ex :
  mantissa_text m -> optional_exponent ex ->
  match_mantissa (m ++ ex) = Some (m, ex).
Proof.
  intros Hm Hex. destruct (optional_exponent_head ex Hex) as [Hnd Hnp].
  unfold match_mantissa. destruct Hm as [ds Hne Hds | int frac Hint Hfrac Hside].
  - rewrite (span_digits_app ds ex Hds Hnd).
    destruct ds as [|d ds]; [now contradiction Hne|].
    destruct ex as [|c ex]; [reflexivity|]. now rewrite Hnp.
  - rewrite <- app_assoc. cbn [app].
    rewrite (span_digits_app int ("."%char :: frac ++ ex) Hint eq_refl).
    rewrite (span_digits_app frac ex Hfrac Hnd).
    destruct int as [|i0 int]; cbn [Ascii.eqb Bool.eqb].
    + destruct frac as [|f0 frac]; [|reflexivity].
      destruct Hside as [H|H]; now contradiction H.
    + reflexivity.
Qed.

Lemma mantissa_text_head m r :
  mantissa_text m ->
  match m ++ r with [] => True | c :: _ => is_sign c = false end.
Proof.
  intros [ds Hne Hds | int frac Hint _ _].
  - destruct ds as [|d ds]; [now contradiction Hne|].
    inversion Hds; subst. cbn. now apply digit_not_sign.
  - destruct int as [|i0 int]; cbn; [reflexivity|].
    inversion Hint; subst. now apply digit_not_sign.
Qed.

(** The expression matches exactly the strings of the grammar. *)
Lemma regex_match_grammar s :
  (exists m, regex_match s = Some m) <-> numeric_text s.
Proof.
  split.
  - intros [[[m1 m2] m3] H]. unfold regex_match in H.
    destruct (match_sign s) as [m1' r] eqn:Hsg.
    destruct (match_sign_spec s m1' r Hsg) as (sg & -> & Hsgt).
    destruct (match_mantissa r) as [[m2' r']|] eqn:Hm; [|discriminate].
    destruct (match_mantissa_spec r m2' r' Hm) as (-> & Hmt).
    destruct (match_exponent r') as [m3'|] eqn:Hex; [|discriminate].
    exists sg, m2', r'. repeat split; try assumption.
    eapply match_exponent_spec; eassumption.
  - intros (sg & m & ex & -> & Hsg & Hm & Hex).
    unfold regex_match.
    destruct (match_sign_app sg (m ++ ex) Hsg (mantissa_text_head m ex Hm))
      as [m1 ->].
    rewrite (match_mantissa_complete m ex Hm Hex).
    destruct (match_exponent_complete ex Hex) as [m3 ->]. eauto.
Qed.

Lemma numeric_text_nonempty s : numeric_text s -> s <> [].
Proof.
  intros (sg & m & ex & -> & _ & Hm & _) H.
  apply app_eq_nil in H. destruct H as [_ H].
  apply app_eq_nil in H. destruct H as [H _].
  destruct Hm as [ds Hne _ | int frac _ _ _]; [now apply Hne|].
  now destruct int.
Qed.

Lemma from_string_cases x :
  (trim x = [] /\ from_string x = Err EmptyInput) \/
  (trim x <> [] /\ regex_match (trim x) = None /\
   from_string x = Err InvalidFormat) \/
  (trim x <> [] /\ (exists m, regex_match (trim x) = Some m) /\
   exists v, from_string x = Ok v).
Proof.
  unfold from_string. destruct (trim x) as [|c s] eqn:Ht; [now left|].
  right. destruct (regex_match (c :: s)) as [[[m1 m2] m3]|] eqn:Hm.
  - right. split; [discriminate|]. split; [eauto|].
    destruct (indexOf "."%char m2); eauto.
  - left. repeat split. discriminate.
Qed.

(** ** The expression of [from] matches the grammar *)

Lemma matches_eps_inv s : matches Eps s -> s = [].
Proof. intros H. now inversion H. Qed.

Lemma matches_class_inv p s :
  matches (Class p) s -> exists c, s = [c] /\ p c = true.
Proof. intros H. inversion H; subst. eauto. Qed.

Lemma matches_seq_inv r1 r2 s :
  matches (Seq r1 r2) s ->
  exists s1 s2, s = s1 ++ s2 /\ matches r1 s1 /\ matches r2 s2.
Proof. intros H. inversion H; subst. eauto. Qed.

Lemma matches_alt_inv r1 r2 s :
  matches (Alt r1 r2) s -> matches r1 s \/ matches r2 s.
Proof. intros H. inversion H; subst; auto. Qed.

Lemma matches_opt r s : matches (Opt r) s <-> matches r s \/ s = [].
Proof.
  unfold Opt. split.
  - intros H. apply matches_alt_inv in H. destruct H as [H|H]; [now left|].
    right. now apply matches_eps_inv.
  - intros [H | ->]; [now apply matches_alt_l|].
    apply matches_alt_r. constructor.
Qed.

Lemma matches_star_digits s :
  matches (Star (Class is_digit)) s <-> all_digits s.
Proof.
  split.
  - intros H. remember (Star (Class is_digit)) as r eqn:Hr.
    induction H as [| | | | | r' | r' s1 s2 H1 _ H2 IH2]; try discriminate Hr.
    + constructor.
    + injection Hr as ->.
      apply matches_class_inv in H1. destruct H1 as (c & -> & Hc).
      constructor; [exact Hc|]. now apply IH2.
  - induction 1 as [|c t Hc _ IH]; [constructor|].
    change (c :: t) with ([c] ++ t).
    apply matches_star_cons; [now constructor|exact IH].
Qed.

Lemma matches_plus_digits s :
  matches (Plus (Class is_digit)) s <-> s <> [] /\ all_digits s.
Proof.
  unfold Plus. split.
  - intros H. apply matches_seq_inv in H.
    destruct H as (s1 & s2 & -> & H1 & H2).
    apply matches_class_inv in H1. destruct H1 as (c & -> & Hc).
    apply matches_star_digits in H2.
    split; [discriminate|]. now constructor.
  - intros [Hne Hd]. destruct Hd as [|c t Hc Ht]; [now contradiction Hne|].
    change (c :: t) with ([c] ++ t).
    apply matches_seq; [now constructor|now apply matches_star_digits].
Qed.

Lemma matches_opt_sign s :
  matches (Opt (Class is_sign)) s <-> optional_sign s.
Proof.
  rewrite matches_opt. split.
  - intros [H | ->]; [|constructor].
    apply matches_class_inv in H. destruct H as (c & -> & Hc).
    now constructor.
  - intros [|c Hc]; [now right|]. left. now constructor.
Qed.

Lemma matches_point s : matches (Class is_point) s <-> s = ["."%char].
Proof.
  split.
  - intros H. apply matches_class_inv in H. destruct H as (c & -> & Hc).
    unfold is_point in Hc. apply Ascii.eqb_eq in Hc. now subst.
  - intros ->. now constructor.
Qed.

Lemma matches_mantissa s :
  matches (Alt (Seq (Plus (Class is_digit))
                    (Opt (Seq (Class is_point) (Star (Class is_digit)))))
               (Seq (Class is_point) (Plus (Class is_digit)))) s
  <-> mantissa_text s.
Proof.
  split.
  - intros H. apply matches_alt_inv in H. destruct H as [H|H];
      apply matches_seq_inv in H; destruct H as (s1 & s2 & -> & H1 & H2).
    + apply matches_plus_digits in H1. destruct H1 as [Hne Hd].
      apply matches_opt in H2. destruct H2 as [H2 | ->].
      * apply matches_seq_inv in H2. destruct H2 as (p & f & -> & Hp & Hf).
        apply matches_point in Hp. subst p.
        apply matches_star_digits in Hf. cbn [app].
        apply mantissa_point; auto.
      * rewrite app_nil_r. now apply mantissa_digits.
    + apply matches_point in H1. subst s1.
      apply matches_plus_digits in H2. destruct H2 as [Hne Hd].
      apply (mantissa_point [] s2); [constructor|assumption|now right].
  - intros [ds Hne Hd | int frac Hi Hf Hside].
    + apply matches_alt_l. rewrite <- (app_nil_r ds).
      apply matches_seq; [now apply matches_plus_digits|].
      apply matches_opt. now right.
    + destruct int as [|i0 int].
      * apply matches_alt_r. change ([] ++ "."%char :: frac) with (["."%char] ++ frac).
        apply matches_seq; [now apply matches_point|].
        apply matches_plus_digits. split; [|assumption].
        destruct Hside as [H|H]; [now contradiction H|exact H].
      * apply matches_alt_l.
        apply matches_seq; [apply matches_plus_digits; split; [discriminate|assumption]|].
        apply matches_opt. left.
        change ("."%char :: frac) with (["."%char] ++ frac).
        apply matches_seq; [now apply matches_point|now apply matches_star_digits].
Qed.

Lemma matches_opt_exponent s :
  matches (Opt (Seq (Class is_exp_marker)
                    (Seq (Opt (Class is_sign)) (Plus (Class is_digit))))) s
  <-> optional_exponent s.
Proof.
  rewrite matches_opt. split.
  - intros [H | ->]; [|constructor].
    apply matches_seq_inv in H. destruct H as (m & r & -> & Hm & Hr).
    apply matches_class_inv in Hm. destruct Hm as (c & -> & Hc).
    apply matches_seq_inv in Hr. destruct Hr as (sg & ds & -> & Hsg & Hds).
    apply matches_opt_sign in Hsg.
    apply matches_plus_digits in Hds. destruct Hds as [Hne Hd].
    cbn [app]. now apply exponent_present.
  - intros [|m sg ds Hm Hsg Hne Hd]; [now right|]. left.
    change (m :: sg ++ ds) with ([m] ++ sg ++ ds).
    apply matches_seq; [now constructor|].
    apply matches_seq; [now apply matches_opt_sign|].
    now apply matches_plus_digits.
Qed.

(** The expression matches exactly the numeric text of the grammar. *)
Lemma number_re_grammar s : matches number_re s <-> numeric_text s.
Proof.
  unfold number_re, numeric_text. split.
  - intros H. apply matches_seq_inv in H.
    destruct H as (sg & r & -> & Hsg & Hr).
    apply matches_seq_inv in Hr. destruct Hr as (m & ex & -> & Hm & Hex).
    exists sg, m, ex. split; [reflexivity|].
    split; [now apply matches_opt_sign|].
    split; [now apply matches_mantissa|now apply matches_opt_exponent].
  - intros (sg & m & ex & -> & Hsg & Hm & Hex).
    apply matches_seq; [now apply matches_opt_sign|].
    apply matches_seq; [now apply matches_mantissa|now apply matches_opt_exponent].
Qed.

(** The matcher of the model finds a match exactly when the expression has
    one. *)
Lemma regex_match_number_re s :
  (exists m, regex_match s = Some m) <-> matches number_re s.
Proof. rewrite regex_match_grammar. symmetry. apply number_re_grammar. Qed.

(** ** Decimal numerals *)

Lemma is_digit_range c : is_digit c = true -> 0 <= digit_val c <= 9.
Proof.
  unfold is_digit, digit_val. intros H.
  apply andb_true_iff in H. destruct H as [H1 H2].
  apply Z.leb_le in H1, H2. lia.
Qed.

Lemma digit_char_spec d :
  0 <= d <= 9 ->
  is_digit (digit_char d) = true /\ digit_val (digit_char d) = d.
Proof.
  intros H.
  assert (Hd : d = 0 \/ d = 1 \/ d = 2 \/ d = 3 \/ d = 4 \/
               d = 5 \/ d = 6 \/ d = 7 \/ d = 8 \/ d = 9) by lia.
  repeat (destruct Hd as [-> | Hd]; [split; reflexivity|]).
  rewrite Hd. split; reflexivity.
Qed.

Lemma all_digits_app a b : all_digits a -> all_digits b -> all_digits (a ++ b).
Proof. intros Ha Hb. apply Forall_app. now split. Qed.

Lemma all_digits_zeros n : all_digits (repeat "0"%char n).
Proof. induction n; cbn; constructor; [reflexivity|assumption]. Qed.

Lemma all_digits_firstn k : forall l, all_digits l -> all_digits (firstn k l).
Proof.
  induction k as [|k IH]; intros l Hl; [constructor|].
  destruct Hl as [|c l Hc Hl]; cbn [firstn]; constructor; [assumption|].
  apply IH. assumption.
Qed.

Lemma all_digits_skipn k : forall l, all_digits l -> all_digits (skipn k l).
Proof.
  induction k as [|k IH]; intros l Hl; [exact Hl|].
  destruct Hl as [|c l Hc Hl]; cbn [skipn]; [constructor|].
  apply IH. assumption.
Qed.

Lemma value_app a b :
  BigInt_of_digits (a ++ b) =
  BigInt_of_digits a * 10 ^ Z.of_nat (List.length b) + BigInt_of_digits b.
Proof.
  induction a as [|c a IH]; cbn [app BigInt_of_digits]; [lia|].
  rewrite IH, length_app, Nat2Z.inj_add, Z.pow_add_r by lia. ring.
Qed.

Lemma value_bound l :
  all_digits l -> 0 <= BigInt_of_digits l < 10 ^ Z.of_nat (List.length l).
Proof.
  induction 1 as [|c l Hc _ IH]; cbn [BigInt_of_digits List.length].
  - cbn. lia.
  - pose proof (is_digit_range c Hc).
    rewrite Nat2Z.inj_succ, Z.pow_succ_r by lia. nia.
Qed.

Lemma value_zeros n : BigInt_of_digits (repeat "0"%char n) = 0.
Proof.
  induction n as [|n IH]; cbn [repeat BigInt_of_digits]; [reflexivity|].
  rewrite IH. change (digit_val "0") with 0. lia.
Qed.

Lemma pow10_pos k : 0 <= k -> 0 < 10 ^ k.
Proof. intros. apply Z.pow_pos_nonneg; lia. Qed.

Lemma value_split k l :
  all_digits l -> (k <= List.length l)%nat ->
  BigInt_of_digits (firstn k l) =
    BigInt_of_digits l / 10 ^ Z.of_nat (List.length l - k) /\
  BigInt_of_digits (skipn k l) =
    BigInt_of_digits l mod 10 ^ Z.of_nat (List.length l - k).
Proof.
  intros Hl Hk.
  pose proof (value_app (firstn k l) (skipn k l)) as Happ.
  rewrite firstn_skipn, length_skipn in Happ.
  pose proof (value_bound (skipn k l) (all_digits_skipn k l Hl)) as Hb.
  rewrite length_skipn in Hb.
  pose proof (pow10_pos (Z.of_nat (List.length l - k)) ltac:(lia)) as Hp.
  set (m := 10 ^ Z.of_nat (List.length l - k)) in *.
  split.
  - apply (Z.div_unique_pos _ _ _ (BigInt_of_digits (skipn k l))); lia.
  - apply (Z.mod_unique_pos _ _ (BigInt_of_digits (firstn k l))); lia.
Qed.

(** The numeral [digits_acc] writes in front of [acc]. *)
Lemma digits_acc_spec fuel : forall n acc,
  (0 < fuel)%nat -> 0 <= n < 2 ^ Z.of_nat fuel ->
  exists ds,
    digits_acc fuel n acc = ds ++ acc /\
    all_digits ds /\ ds <> [] /\
    BigInt_of_digits ds = n /\
    (0 < n -> 10 ^ (Z.of_nat (List.length ds) - 1) <= n).
Proof.
  induction fuel as [|fuel IH]; intros n acc Hf Hn; [lia|].
  cbn [digits_acc].
  pose proof (Z.mod_pos_bound n 10 ltac:(lia)) as Hm.
  destruct (digit_char_spec (n mod 10) ltac:(lia)) as [Hd Hv].
  pose proof (Z.div_mod n 10 ltac:(lia)) as Hdm.
  destruct (Z.eqb_spec (n / 10) 0) as [Hq|Hq].
  - exists [digit_char (n mod 10)]. repeat split.
    + constructor; [assumption|constructor].
    + discriminate.
    + cbn [BigInt_of_digits List.length]. rewrite Hv. cbn. lia.
    + cbn. lia.
  - assert (Hq' : 0 < n / 10).
    { pose proof (Z.div_pos n 10 ltac:(lia) ltac:(lia)). lia. }
    rewrite Nat2Z.inj_succ, Z.pow_succ_r in Hn by lia.
    assert (Hlt : n / 10 < 2 ^ Z.of_nat fuel)
      by (apply Z.div_lt_upper_bound; lia).
    assert (Hf' : (0 < fuel)%nat).
    { destruct fuel; [cbn in Hlt; lia|lia]. }
    destruct (IH (n / 10) (digit_char (n mod 10) :: acc) Hf' ltac:(lia))
      as (ds & Heq & Hds & Hne & Hval & Hlead).
    exists (ds ++ [digit_char (n mod 10)]). repeat split.
    + rewrite Heq, <- app_assoc. reflexivity.
    + apply all_digits_app; [assumption|]. constructor; [assumption|constructor].
    + intros H. apply app_eq_nil in H. destruct H as [_ H]. discriminate H.
    + rewrite value_app. cbn [BigInt_of_digits List.length].
      rewrite Hval, Hv. cbn. lia.
    + intros _. specialize (Hlead Hq').
      rewrite length_app. cbn [List.length].
      replace (Z.of_nat (List.length ds + 1) - 1)
        with (Z.succ (Z.of_nat (List.length ds) - 1)) by lia.
      assert (0 < List.length ds)%nat by (destruct ds; [now contradiction Hne|cbn; lia]).
      rewrite Z.pow_succ_r by lia. lia.
Qed.

Lemma nat_toString_spec n :
  0 <= n ->
  all_digits (nat_toString n) /\ nat_toString n <> [] /\
  BigInt_of_digits (nat_toString n) = n /\
  (0 < n -> 10 ^ (strlen (nat_toString n) - 1) <= n).
Proof.
  intros Hn. unfold nat_toString, strlen.
  destruct (digits_acc_spec (strip_fuel n) n []) as (ds & Heq & H).
  - unfold strip_fuel. lia.
  - destruct (Z.eq_dec n 0) as [-> | Hnz]; [cbn; lia|].
    pose proof (strip_fuel_enough n Hnz). lia.
  - rewrite app_nil_r in Heq. rewrite Heq. exact H.
Qed.

Lemma leading_digit c t :
  all_digits (c :: t) ->
  10 ^ (strlen (c :: t) - 1) <= BigInt_of_digits (c :: t) ->
  c <> "0"%char.
Proof.
  intros Hd Hle ->. inversion Hd as [|? ? _ Ht]; subst.
  pose proof (value_bound t Ht) as Hb.
  unfold strlen in Hle. cbn [BigInt_of_digits List.length] in Hle.
  change (digit_val "0") with 0 in Hle.
  rewrite Nat2Z.inj_succ in Hle.
  replace (Z.succ (Z.of_nat (List.length t)) - 1)
    with (Z.of_nat (List.length t)) in Hle by lia.
  lia.
Qed.

Lemma nat_toString_no_leading_zero n :
  0 <= n -> no_leading_zero (nat_toString n).
Proof.
  intros Hn. destruct (Z.eq_dec n 0) as [-> | Hnz]; [now left|].
  destruct (nat_toString_spec n Hn) as (Hd & Hne & Hv & Hlead).
  right. destruct (nat_toString n) as [|c t] eqn:E; [now contradiction Hne|].
  exists c, t. split; [reflexivity|].
  apply (leading_digit c t Hd). rewrite Hv. apply Hlead. lia.
Qed.

(** ** Slices *)

Lemma strlen_nonneg s : 0 <= strlen s.
Proof. unfold strlen. lia. Qed.

Lemma strlen_app a b : strlen (a ++ b) = strlen a + strlen b.
Proof. unfold strlen. rewrite length_app. lia. Qed.

Lemma strlen_zeros n : strlen (repeat "0"%char n) = Z.of_nat n.
Proof. unfold strlen. now rewrite repeat_length. Qed.

Lemma zeros_ok n : 0 <= n -> zeros n = Ok (repeat "0"%char (Z.to_nat n)).
Proof.
  intros Hn. unfold zeros. destruct (Z.ltb_spec n 0); [lia|reflexivity].
Qed.

Lemma slice_prefix s e : 0 <= e -> slice s 0 e = firstn (Z.to_nat e) s.
Proof.
  intros He. unfold slice, slice_index.
  pose proof (strlen_nonneg s) as Hs.
  change (0 <? 0) with false. cbv iota.
  destruct (Z.ltb_spec e 0); [lia|].
  rewrite (Z.min_l 0) by lia. cbn [Z.to_nat skipn]. rewrite Z.sub_0_r.
  destruct (Z.le_gt_cases e (strlen s)) as [Hle|Hgt].
  - now rewrite Z.min_l by lia.
  - rewrite Z.min_r by lia. unfold strlen in *.
    rewrite Nat2Z.id, !firstn_all2; [reflexivity|lia|lia].
Qed.

Lemma slice_suffix s b :
  0 <= b <= strlen s -> slice_from s b = skipn (Z.to_nat b) s.
Proof.
  intros Hb. unfold slice_from, slice, slice_index.
  destruct (Z.ltb_spec b 0); [lia|].
  destruct (Z.ltb_spec (strlen s) 0); [lia|].
  rewrite !Z.min_l by lia.
  apply firstn_all2. rewrite length_skipn. unfold strlen in *. lia.
Qed.

(** ** The fraction digits of [toFixed] *)

(** [frac] holds the [k] digits behind the point; padded with zeros and cut
    to [d] digits it is the numeral of the first [d] fraction digits. *)
Lemma fraction_digits frac k d c :
  all_digits frac -> strlen frac = k -> 0 < k -> 0 <= d ->
  BigInt_of_digits frac = c mod 10 ^ k ->
  let fp := firstn (Z.to_nat d)
              (frac ++ repeat "0"%char (Z.to_nat (Z.max 0 (d - k)))) in
  all_digits fp /\ strlen fp = d /\
  BigInt_of_digits fp =
    (if 0 <=? d - k then c * 10 ^ (d - k) else c / 10 ^ (k - d)) mod 10 ^ d.
Proof.
  intros Hfrac Hlen Hk Hd Hval fp.
  set (pad := Z.to_nat (Z.max 0 (d - k))) in *.
  set (g := frac ++ repeat "0"%char pad) in *.
  assert (Hg : all_digits g)
    by (apply all_digits_app; [assumption|apply all_digits_zeros]).
  assert (Hglen : strlen g = k + Z.of_nat pad)
    by (unfold g; rewrite strlen_app, strlen_zeros; lia).
  assert (Hgval : BigInt_of_digits g = (c mod 10 ^ k) * 10 ^ Z.of_nat pad).
  { unfold g. rewrite value_app, value_zeros, repeat_length, Hval. lia. }
  assert (Hdle : (Z.to_nat d <= List.length g)%nat)
    by (unfold strlen in Hglen; lia).
  destruct (value_split (Z.to_nat d) g Hg Hdle) as [Hfv _].
  fold fp in Hfv.
  split; [now apply all_digits_firstn|].
  split.
  { unfold fp, strlen. rewrite length_firstn. lia. }
  rewrite Hfv, Hgval.
  pose proof (pow10_pos k ltac:(lia)) as Hpk.
  destruct (Z.leb_spec 0 (d - k)) as [Hge|Hlt].
  - (* the fraction is padded *)
    assert (Hpad : Z.of_nat pad = d - k) by lia.
    replace (List.length g - Z.to_nat d)%nat with 0%nat
      by (unfold strlen in Hglen; lia).
    rewrite Hpad. change (10 ^ Z.of_nat 0) with 1. rewrite Z.div_1_r.
    replace (10 ^ d) with (10 ^ k * 10 ^ (d - k))
      by (rewrite <- Z.pow_add_r by lia; f_equal; lia).
    pose proof (pow10_pos (d - k) ltac:(lia)).
    rewrite Z.mul_mod_distr_r by lia. reflexivity.
  - (* the fraction is cut *)
    assert (Hpad : pad = 0%nat) by lia.
    rewrite Hpad. change (10 ^ Z.of_nat 0) with 1. rewrite Z.mul_1_r.
    replace (Z.of_nat (List.length g - Z.to_nat d)) with (k - d)
      by (unfold strlen in Hglen; lia).
    pose proof (pow10_pos (k - d) ltac:(lia)) as Hp1.
    pose proof (pow10_pos d ltac:(lia)) as Hp2.
    replace (10 ^ k) with (10 ^ (k - d) * 10 ^ d)
      by (rewrite <- Z.pow_add_r by lia; f_equal; lia).
    rewrite Z.rem_mul_r by lia.
    pose proof (Z.mod_pos_bound c (10 ^ (k - d)) Hp1) as Hb.
    symmetry.
    apply (Z.div_unique_pos _ _ _ (c mod 10 ^ (k - d))); [lia|lia].
Qed.

(** ** [toFixed] on a canonical value *)

Lemma toFixed_zero x d :
  coefficient x = 0 -> 0 <= d ->
  toFixed x d = Ok (lit "0." ++ repeat "0"%char (Z.to_nat d)).
Proof.
  intros Hc Hd. unfold toFixed. rewrite Hc. cbn [Z.eqb].
  now rewrite zeros_ok by lia.
Qed.

Lemma toFixed_digits x d :
  canonical x -> 0 <= d ->
  exists ip fp,
    toFixed x d = Ok (sign_prefix x ++ ip ++ "."%char :: fp) /\
    all_digits ip /\ no_leading_zero ip /\
    BigInt_of_digits ip = scaled_magnitude x 0 /\
    all_digits fp /\ strlen fp = d /\
    BigInt_of_digits fp = scaled_magnitude x d mod 10 ^ d.
Proof.
  intros Hx Hd.
  pose proof (pow10_pos d Hd) as Hpd.
  destruct (canonical_cases x Hx) as [-> | (Hc & _ & _)].
  { (* zero *)
    exists ["0"%char], (repeat "0"%char (Z.to_nat d)).
    rewrite toFixed_zero by (cbn; lia).
    split; [reflexivity|].
    split; [constructor; [reflexivity|constructor]|].
    split; [now left|].
    split; [reflexivity|].
    split; [apply all_digits_zeros|].
    split; [rewrite strlen_zeros; lia|].
    rewrite value_zeros. unfold scaled_magnitude. cbn [coefficient exponent].
    destruct (0 <=? 0 + d); cbn; now rewrite ?Z.mod_0_l by lia. }
  destruct x as [c e s]. cbn [coefficient] in Hc.
  destruct (nat_toString_spec c ltac:(lia)) as (Hds & Hne & Hval & Hlead).
  specialize (Hlead Hc).
  pose proof (value_bound _ Hds) as Hub. fold (strlen (nat_toString c)) in Hub.
  rewrite Hval in Hub.
  assert (Hhead : exists c0 t, nat_toString c = c0 :: t /\ c0 <> "0"%char).
  { destruct (nat_toString_no_leading_zero c ltac:(lia)) as [E|H]; [|exact H].
    rewrite E in Hval. change (BigInt_of_digits ["0"%char]) with 0 in Hval. lia. }
  unfold toFixed, scaled_magnitude, toString_int.
  cbn [coefficient exponent].
  assert ((c =? 0) = false) as -> by (apply Z.eqb_neq; lia).
  assert ((c <? 0) = false) as -> by (apply Z.ltb_ge; lia).
  set (ds := nat_toString c) in *.
  set (L := strlen ds) in *.
  assert (HL : 0 < L).
  { unfold L, strlen. destruct ds; [now contradiction Hne|cbn; lia]. }
  rewrite Z.geb_leb, !Z.add_0_r.
  destruct (Z.leb_spec 0 e) as [He|He].
  - (* the coefficient is followed by [e] zeros *)
    rewrite !zeros_ok by lia. cbn [bind].
    exists (ds ++ repeat "0"%char (Z.to_nat e)), (repeat "0"%char (Z.to_nat d)).
    split; [reflexivity|].
    split; [apply all_digits_app; [assumption|apply all_digits_zeros]|].
    split.
    { right. destruct Hhead as (c0 & t & -> & Hc0).
      exists c0, (t ++ repeat "0"%char (Z.to_nat e)). now split. }
    split.
    { rewrite value_app, value_zeros, repeat_length, Hval, Z2Nat.id by lia. lia. }
    split; [apply all_digits_zeros|].
    split; [rewrite strlen_zeros; lia|].
    rewrite value_zeros.
    destruct (Z.leb_spec 0 (e + d)); [|lia].
    rewrite Z.pow_add_r, Z.mul_assoc by lia.
    now rewrite Z.mod_mul by lia.
  - (* the point is inside or in front of the coefficient *)
    set (k := - e) in *.
    pose proof (pow10_pos k ltac:(lia)) as Hpk.
    assert (Hscaled :
      (if 0 <=? e + d then c * 10 ^ (e + d) else c / 10 ^ (- (e + d))) =
      (if 0 <=? d - k then c * 10 ^ (d - k) else c / 10 ^ (k - d))).
    { replace (e + d) with (d - k) by lia.
      now replace (- (d - k)) with (k - d) by lia. }
    rewrite Hscaled.
    replace (- e) with k by lia.
    destruct (Z.ltb_spec k L) as [Hin|Hout].
    + (* inside *)
      replace (L - (L - k)) with k by lia.
      rewrite zeros_ok by lia. cbn [bind].
      rewrite slice_prefix, slice_suffix, slice_prefix by (fold L; lia).
      assert (Hidx : (Z.to_nat (L - k) <= List.length ds)%nat)
        by (unfold L, strlen in *; lia).
      destruct (value_split (Z.to_nat (L - k)) ds Hds Hidx) as [Hfst Hsnd].
      replace (Z.of_nat (List.length ds - Z.to_nat (L - k))) with k in Hfst, Hsnd
        by (unfold L, strlen in *; lia).
      rewrite Hval in Hfst, Hsnd.
      destruct (fraction_digits (skipn (Z.to_nat (L - k)) ds) k d c)
        as (Hfd & Hfl & Hfv); try assumption; try lia.
      { now apply all_digits_skipn. }
      { unfold strlen. rewrite length_skipn. unfold L, strlen in *. lia. }
      eexists _, _. split; [reflexivity|].
      split; [now apply all_digits_firstn|].
      split.
      { right. destruct Hhead as (c0 & t & E & Hc0). rewrite E.
        destruct (Z.to_nat (L - k)) as [|n] eqn:En; [lia|].
        exists c0, (firstn n t). now split. }
      split; [exact Hfst|].
      split; [exact Hfd|]. split; [exact Hfl|exact Hfv].
    + (* in front *)
      rewrite zeros_ok by lia. cbn [bind].
      rewrite strlen_zeros, Z2Nat.id by lia.
      replace (L - L) with 0 by lia.
      replace (k - L + L) with k by lia.
      rewrite zeros_ok by lia. cbn [bind].
      rewrite slice_prefix by lia.
      rewrite (app_assoc (repeat "0"%char (Z.to_nat (k - L))) ds).
      assert (Hle : 10 ^ L <= 10 ^ k) by (apply Z.pow_le_mono_r; lia).
      destruct (fraction_digits (repeat "0"%char (Z.to_nat (k - L)) ++ ds) k d c)
        as (Hfd & Hfl & Hfv); try assumption; try lia.
      { apply all_digits_app; [apply all_digits_zeros|assumption]. }
      { rewrite strlen_app, strlen_zeros. fold L. lia. }
      { rewrite value_app, value_zeros, Hval, Z.mod_small by lia. lia. }
      exists ["0"%char]. eexists. split; [reflexivity|].
      split; [constructor; [reflexivity|constructor]|].
      split; [now left|].
      split; [cbn; rewrite Z.div_small by lia; reflexivity|].
      split; [exact Hfd|]. split; [exact Hfl|exact Hfv].
Qed.

(** The integer part of |x| * 10^d, divided by 10^d, is the integer part
    of |x|. *)
Lemma scaled_magnitude_integer_part x d :
  canonical x -> 0 <= d ->
  scaled_magnitude x d / 10 ^ d = scaled_magnitude x 0.
Proof.
  intros Hx Hd. pose proof (pow10_pos d Hd) as Hpd.
  unfold scaled_magnitude. rewrite Z.add_0_r.
  destruct (Z.leb_spec 0 (exponent x)) as [He|He].
  - destruct (Z.leb_spec 0 (exponent x + d)); [|lia].
    rewrite Z.pow_add_r, Z.mul_assoc by lia.
    now rewrite Z.div_mul by lia.
  - pose proof (pow10_pos (- exponent x) ltac:(lia)) as Hpe.
    destruct (Z.leb_spec 0 (exponent x + d)) as [Hs|Hs].
    + pose proof (pow10_pos (exponent x + d) Hs).
      replace (10 ^ d) with (10 ^ (- exponent x) * 10 ^ (exponent x + d))
        by (rewrite <- Z.pow_add_r by lia; f_equal; lia).
      now rewrite Z.div_mul_cancel_r by lia.
    + pose proof (pow10_pos (- (exponent x + d)) ltac:(lia)).
      rewrite Z.div_div by lia.
      rewrite <- Z.pow_add_r by lia. do 2 f_equal. lia.
Qed.

(** Canonical form of a concrete value, by computation. *)
Ltac canonical_by_computation :=
  unfold canonical, canonical_zero, canonical_nonzero, int32_exponent;
  cbn; repeat split; lia.

(** * The statements of the specification *)

(** C1 evaluated on the code: the sum of the header's own example.
    [_align] multiplies the coefficient of the operand with the SMALLER
    exponent by 10^diff and returns the LARGER exponent, so 123e398 + 456e397
    becomes 123 + 4560 at exponent 398: 4.683e+401 instead of 1.686e+400.  In
    units of 10^397 the operands are 1230 and 456 and the result is 46830. *)
Theorem add_example_on_the_code :
  parse "1.23e400" = Ok (mkBigNum 123 398 1) /\
  parse "4.56e399" = Ok (mkBigNum 456 397 1) /\
  _align (mkBigNum 123 398 1) (mkBigNum 456 397 1) = (123, 4560, 398) /\
  add (mkBigNum 123 398 1) (mkBigNum 456 397 1) = mkBigNum 4683 398 1 /\
  toString (mkBigNum 4683 398 1) 4 = lit "4.683e+401" /\
  parse "1.686e400" = Ok (mkBigNum 1686 397 1) /\
  scaled_value (mkBigNum 123 398 1) 397 = 1230 /\
  scaled_value (mkBigNum 456 397 1) 397 = 456 /\
  scaled_value (add (mkBigNum 123 398 1) (mkBigNum 456 397 1)) 397 = 46830.
Proof. repeat split; vm_compute; reflexivity. Qed.

(** C2 evaluated on the code.  10 compares below 2, and 2 above 10: the
    operands are (1, 1, +1) and (2, 0, +1), and [_align] scales the
    coefficient of 2 up to 20 instead of the coefficient of 10 up to 10.  And
    -1 compares below -2: the aligned coefficients carry the sign already
    (-1 > -2), and the result is flipped once more for negative operands. *)
Theorem cmp_example_on_the_code :
  parse "10" = Ok (mkBigNum 1 1 1) /\
  parse "2" = Ok (mkBigNum 2 0 1) /\
  _align (mkBigNum 1 1 1) (mkBigNum 2 0 1) = (1, 20, 1) /\
  cmp (mkBigNum 1 1 1) (mkBigNum 2 0 1) = -1 /\
  Derived.lt (mkBigNum 1 1 1) (mkBigNum 2 0 1) = true /\
  cmp (mkBigNum 2 0 1) (mkBigNum 1 1 1) = 1 /\
  scaled_value (mkBigNum 1 1 1) 0 = 10 /\
  scaled_value (mkBigNum 2 0 1) 0 = 2 /\
  parse "-1" = Ok (mkBigNum 1 0 (-1)) /\
  parse "-2" = Ok (mkBigNum 2 0 (-1)) /\
  _align (mkBigNum 1 0 (-1)) (mkBigNum 2 0 (-1)) = (-1, -2, 0) /\
  cmp (mkBigNum 1 0 (-1)) (mkBigNum 2 0 (-1)) = -1 /\
  Derived.lt (mkBigNum 1 0 (-1)) (mkBigNum 2 0 (-1)) = true.
Proof. repeat split; vm_compute; reflexivity. Qed.

(** C3. Canonical form holds after every construction: whatever the
    constructor is given, and whatever parsing, [add], [sub], [mul], [div] or
    [pow] return, a zero coefficient comes with exponent 0 and sign +1, and a
    nonzero coefficient is positive and not divisible by 10 (and the sign is
    +1 or -1). *)
Theorem construction_is_canonical :
  (forall c e s, canonical (new_BigNum c e s)) /\
  canonical ZERO /\
  (forall s, on_result canonical (from_string s)) /\
  (forall z, canonical (from_bigint z)) /\
  (forall a b, canonical (add a b)) /\
  (forall a b, canonical (sub a b)) /\
  (forall a b, canonical (mul a b)) /\
  (forall a b p, on_result canonical (div a b p)) /\
  (forall a n p, on_result canonical (pow a n p)).
Proof.
  split; [intros; apply new_BigNum_canonical|].
  split; [apply ZERO_canonical|].
  split.
  { intros s. destruct (from_string s) eqn:E; [|exact I].
    cbn. eapply from_string_canonical; eassumption. }
  split; [intros; apply new_BigNum_canonical|].
  split; [intros; apply add_canonical|].
  split; [intros; apply add_canonical|].
  split; [intros; apply mul_canonical|].
  split.
  - intros a b p. destruct (div a b p) eqn:E; [|exact I].
    cbn. eapply div_canonical; eassumption.
  - intros a n p. destruct (pow a n p) eqn:E; [|exact I].
    cbn. eapply pow_canonical; eassumption.
Qed.

(** C4, as stated, fails: [div] has a third way to fail.  With nonzero
    operands and a precision below -5 the scale [precision + 5] is negative
    and [BigInt(10) ** BigInt(scale)] throws a RangeError. *)
Lemma div_fails_on_a_nonzero_divisor :
  ~ (forall a b p, coefficient b <> 0 -> exists r, div a b p = Ok r).
Proof.
  intros H.
  destruct (H (mkBigNum 1 0 1) (mkBigNum 1 0 1) (-6)) as [r Hr].
  - cbn. lia.
  - vm_compute in Hr. discriminate Hr.
Qed.

(** C4 (amended). [div] fails with DivisionByZeroError for every dividend
    when the divisor is zero; with a nonzero divisor a zero dividend gives
    canonical zero; and with a precision of at least -5 (so with every
    number of digits a caller can ask for) it fails in no other case.  Below
    -5, nonzero operands give a RangeError. *)
Theorem div_failures a b p :
  (coefficient b = 0 -> div a b p = Err DivisionByZeroError) /\
  (coefficient b <> 0 -> coefficient a = 0 -> div a b p = Ok ZERO) /\
  (coefficient b <> 0 -> -5 <= p -> exists r, div a b p = Ok r) /\
  (coefficient b <> 0 -> coefficient a <> 0 -> p < -5 ->
   div a b p = Err RangeError).
Proof.
  split; [apply div_by_zero|].
  split; [apply div_zero_dividend|].
  split; [apply div_returns|apply div_negative_scale].
Qed.

Lemma div_failures_witness :
  div (mkBigNum 5 0 (-1)) ZERO 40 = Err DivisionByZeroError /\
  div ZERO (mkBigNum 2 0 1) 40 = Ok ZERO /\
  exists r, div (mkBigNum 5 0 (-1)) (mkBigNum 2 0 1) 5 = Ok r.
Proof.
  split; [|split].
  - apply (proj1 (div_failures (mkBigNum 5 0 (-1)) ZERO 40)). reflexivity.
  - apply (proj1 (proj2 (div_failures ZERO (mkBigNum 2 0 1) 40)));
      [cbn; lia|reflexivity].
  - apply (proj1 (proj2 (proj2 (div_failures (mkBigNum 5 0 (-1)) (mkBigNum 2 0 1) 5))));
      [cbn; lia|lia].
Defined.

(** C5. [parse] accepts exactly the stated grammar.  With [t] the input
    trimmed of surrounding white space: parsing fails with EmptyInput exactly
    when [t] is empty, with InvalidFormat exactly when [t] is not empty and
    is not numeric text, and it returns a value exactly when [t] is numeric
    text: an optional sign, digits with an optional point (at least one digit
    on one side of it), an optional exponent.  The numeric texts are the
    strings the regular expression of [from] matches. *)
Theorem parse_accepts_the_grammar x :
  (from_string x = Err EmptyInput <-> trim x = []) /\
  (from_string x = Err InvalidFormat <->
     trim x <> [] /\ ~ numeric_text (trim x)) /\
  ((exists v, from_string x = Ok v) <-> numeric_text (trim x)) /\
  (matches number_re (trim x) <-> numeric_text (trim x)).
Proof.
  rewrite <- !and_assoc. split; [|apply number_re_grammar].
  rewrite and_assoc.
  pose proof (regex_match_grammar (trim x)) as Hg.
  destruct (from_string_cases x)
    as [(Ht & Hf) | [(Ht & Hm & Hf) | (Ht & Hm & v & Hf)]]; rewrite Hf.
  - split; [|split].
    + tauto.
    + split; [discriminate|]. intros [H _]. now contradiction H.
    + split; [intros [v [=]]|].
      intros H. now apply numeric_text_nonempty in H.
  - assert (Hn : ~ numeric_text (trim x)).
    { intros H. apply Hg in H. destruct H as [m H]. congruence. }
    split; [|split].
    + split; [discriminate|]. intros H. now contradiction Ht.
    + tauto.
    + split; [intros [v [=]]|]. intros H. now contradiction Hn.
  - split; [|split].
    + split; [discriminate|]. intros H. now contradiction Ht.
    + split; [discriminate|]. intros [_ H]. contradiction H. now apply Hg.
    + split; [intros _; now apply Hg|eauto].
Qed.

(** C6. [toFixed] renders the exact fixed-point expansion, cut (not rounded)
    after the requested digits.  For a canonical [x] and [d >= 0] digits the
    text is the sign, the numeral of the integer part of |x| (exact, with no
    redundant zero), a point, and exactly [d] digits: those of the integer
    part of |x| * 10^d below 10^d.  Zero renders as "0." and [d] zeros, and
    "12345.6789" with 6 digits as "12345.678900". *)
Theorem toFixed_truncates :
  (forall x d, canonical x -> 0 <= d ->
     exists ip fp,
       toFixed x d = Ok (sign_prefix x ++ ip ++ "."%char :: fp) /\
       all_digits ip /\ no_leading_zero ip /\
       BigInt_of_digits ip = scaled_magnitude x 0 /\
       all_digits fp /\ strlen fp = d /\
       BigInt_of_digits fp = scaled_magnitude x d mod 10 ^ d /\
       BigInt_of_digits ip * 10 ^ d + BigInt_of_digits fp = scaled_magnitude x d) /\
  (forall x d, coefficient x = 0 -> 0 <= d ->
     toFixed x d = Ok (lit "0." ++ repeat "0"%char (Z.to_nat d))) /\
  (parse "12345.6789" = Ok (mkBigNum 123456789 (-4) 1) /\
   toFixed (mkBigNum 123456789 (-4) 1) 6 = Ok (lit "12345.678900")).
Proof.
  split; [|split; [apply toFixed_zero|split; vm_compute; reflexivity]].
  intros x d Hx Hd.
  destruct (toFixed_digits x d Hx Hd)
    as (ip & fp & Hout & Hip & Hlz & Hiv & Hfp & Hfl & Hfv).
  exists ip, fp. repeat (split; [assumption|]).
  rewrite Hiv, Hfv, <- (scaled_magnitude_integer_part x d Hx Hd).
  pose proof (pow10_pos d Hd).
  rewrite (Z.div_mod (scaled_magnitude x d) (10 ^ d)) at 3 by lia. ring.
Qed.

Lemma toFixed_truncates_witness :
  exists ip fp,
    toFixed (mkBigNum 123 (-5) (-1)) 4 =
      Ok (sign_prefix (mkBigNum 123 (-5) (-1)) ++ ip ++ "."%char :: fp) /\
    BigInt_of_digits ip = 0 /\ BigInt_of_digits fp = 12.
Proof.
  assert (Hc : canonical (mkBigNum 123 (-5) (-1)))
    by canonical_by_computation.
  destruct (proj1 toFixed_truncates (mkBigNum 123 (-5) (-1)) 4 Hc ltac:(lia))
    as (ip & fp & Hout & _ & _ & Hiv & _ & _ & Hfv & _).
  exists ip, fp. split; [exact Hout|]. split; [exact Hiv|exact Hfv].
Defined.

(** C7. Power consistency: for every canonical [a], of either sign,
    [a.pow(3)] is [a.mul(a).mul(a)], the same triple, and [a.pow(0)] is
    one. *)
Theorem pow_three_is_mul_mul a p :
  canonical a ->
  pow a (Integer 3) p = Ok (mul (mul a a) a) /\
  pow a (Integer 0) p = Ok (mkBigNum 1 0 1).
Proof.
  intros Ha. split; [|reflexivity].
  unfold pow. cbn [Z.eqb Z.gtb Z.compare]. f_equal.
  destruct (canonical_cases a Ha) as [-> | (Hc & Hr & Hs)]; [reflexivity|].
  destruct a as [c e s]. cbn [coefficient exponent sign] in *.
  pose proof (square_last_digit c Hc Hr) as Hsq.
  pose proof (cube_last_digit c Hc Hr) as Hcu.
  pose proof (sign_square s Hs) as Hss.
  unfold pow_positive. cbn [coefficient exponent sign].
  rewrite (new_BigNum_fixed c e s) by assumption.
  change (new_BigNum 1 0 1) with (mkBigNum 1 0 1).
  change 32%nat with (S (S (S 29))).
  rewrite pow_loop_S. cbn [Z.gtb Z.compare].
  change (Z.land (ToInt32 3) 1 =? 0) with false. cbv iota.
  change (Z.shiftr (ToInt32 3) 1) with 1.
  rewrite pow_loop_S. cbn [Z.gtb Z.compare].
  change (Z.land (ToInt32 1) 1 =? 0) with false. cbv iota.
  change (Z.shiftr (ToInt32 1) 1) with 0.
  rewrite pow_loop_S. cbn [Z.gtb Z.compare].
  (* res after the two iterations *)
  rewrite (mul_fixed (mkBigNum 1 0 1) (mkBigNum c (ToInt32 e) s));
    cbn [coefficient exponent sign];
    [ | lia | lia | now rewrite Z.mul_1_l | now rewrite Z.mul_1_l ].
  rewrite (mul_fixed (mkBigNum c (ToInt32 e) s) (mkBigNum c (ToInt32 e) s));
    cbn [coefficient exponent sign];
    [ | lia | lia | assumption | left; assumption ].
  rewrite (mul_fixed (mkBigNum c e s) (mkBigNum c e s));
    cbn [coefficient exponent sign];
    [ | lia | lia | assumption | left; assumption ].
  rewrite Hss, !Z.mul_1_l, Z.add_0_l.
  rewrite !mul_fixed; cbn [coefficient exponent sign];
    rewrite ?Z.mul_1_l, ?Z.mul_1_r; try assumption; try nia.
  - f_equal; [ring|].
    rewrite ToInt32_idem.
    destruct (ToInt32_decomp e) as [k1 ->].
    destruct (ToInt32_decomp (e + 2 ^ 32 * k1 + (e + 2 ^ 32 * k1))) as [k2 ->].
    destruct (ToInt32_decomp (e + e)) as [k3 ->].
    replace (e + 2 ^ 32 * k1 + (e + 2 ^ 32 * k1 + (e + 2 ^ 32 * k1) + 2 ^ 32 * k2))
      with (e + e + e + 2 ^ 32 * (3 * k1 + k2)) by ring.
    replace (e + e + 2 ^ 32 * k3 + e) with (e + e + e + 2 ^ 32 * k3) by ring.
    now rewrite !ToInt32_shift.
  - replace (c * c * c) with (c * (c * c)) by ring. assumption.
Qed.

Lemma pow_three_is_mul_mul_witness :
  pow (mkBigNum 2 1 (-1)) (Integer 3) 40 =
    Ok (mul (mul (mkBigNum 2 1 (-1)) (mkBigNum 2 1 (-1))) (mkBigNum 2 1 (-1))).
Proof.
  apply (pow_three_is_mul_mul (mkBigNum 2 1 (-1)) 40).
  canonical_by_computation.
Defined.

(** C8. [pow] fails with InvalidExponentError exactly when the exponent is
    not an integer: with an integer exponent, positive, zero or negative, it
    returns a value or fails with another error (a zero base and a negative
    exponent divide by zero), and the square-and-multiply loop leaves by its
    own condition. *)
Theorem pow_invalid_exponent a n p :
  (pow a n p = Err InvalidExponentError <-> n = NonInteger) /\
  (forall k, snd (pow_loop 32 (new_BigNum 1 0 1)
                    (new_BigNum (coefficient a) (exponent a) (sign a)) k) <= 0).
Proof.
  split; [|intros k; apply pow_loop_exit].
  split.
  - destruct n as [k|]; [|reflexivity].
    unfold pow. destruct (k =? 0); [discriminate|].
    destruct (k >? 0); [discriminate|].
    rewrite from_one_eq. cbn [bind]. intros E.
    destruct (div_error _ _ _ _ E); discriminate.
  - intros ->. reflexivity.
Qed.

(** C9, as stated, fails: a value whose exponent has left the 32-bit range
    is not a fixed point of [add(zero)].  [new BigNum(10n, 2^31 - 1, 1)] is
    the canonical (1, 2^31, +1); adding zero rebuilds it through the
    constructor, which wraps the exponent to -2^31. *)
Lemma add_zero_is_not_the_identity :
  ~ (forall x, canonical x -> add x ZERO = x).
Proof.
  intros H.
  specialize (H (new_BigNum 10 (2 ^ 31 - 1) 1) (new_BigNum_canonical _ _ _)).
  vm_compute in H. discriminate H.
Qed.

(** C9 (amended). For every canonical [x] whose exponent is in the 32-bit
    range, [x.add(zero)] is [x], and [x] plus its negation (the operand
    [sub] builds: sign flipped, same coefficient and exponent) is canonical
    zero. *)
Theorem additive_identity_and_inverse x :
  canonical x -> int32_exponent x ->
  add x ZERO = x /\
  add x (negate x) = ZERO /\
  sub x x = ZERO /\
  (coefficient x <> 0 ->
   negate x = mkBigNum (coefficient x) (exponent x) (- sign x)).
Proof.
  intros Hx He. unfold int32_exponent in He.
  destruct (canonical_cases x Hx) as [-> | (Hc & Hr & Hs)].
  { repeat split. intros H. now contradiction H. }
  destruct x as [c e s]. cbn [coefficient exponent sign] in *.
  assert (Hneg : negate (mkBigNum c e s) = mkBigNum c e (- s)).
  { unfold negate. cbn [coefficient exponent sign].
    rewrite new_BigNum_fixed by (try assumption; lia).
    now rewrite ToInt32_small. }
  assert (Hinv : add (mkBigNum c e s) (mkBigNum c e (- s)) = ZERO).
  { unfold add, _align. cbn [coefficient exponent sign].
    assert ((c =? 0) = false) as -> by (apply Z.eqb_neq; lia).
    rewrite Z.eqb_refl.
    assert ((c * s + c * - s =? 0) = true) as -> by (apply Z.eqb_eq; lia).
    reflexivity. }
  split; [|split; [|split]].
  - unfold add. cbn [coefficient exponent sign].
    assert ((c =? 0) = false) as -> by (apply Z.eqb_neq; lia).
    change (coefficient ZERO =? 0) with true. cbv iota.
    rewrite new_BigNum_fixed by assumption.
    now rewrite ToInt32_small.
  - now rewrite Hneg.
  - unfold sub. now rewrite Hneg.
  - intros _. exact Hneg.
Qed.

Lemma additive_identity_and_inverse_witness :
  add (mkBigNum 123 (-2) (-1)) ZERO = mkBigNum 123 (-2) (-1) /\
  add (mkBigNum 123 (-2) (-1)) (negate (mkBigNum 123 (-2) (-1))) = ZERO.
Proof.
  assert (H1 : canonical (mkBigNum 123 (-2) (-1)))
    by canonical_by_computation.
  assert (H2 : int32_exponent (mkBigNum 123 (-2) (-1)))
    by canonical_by_computation.
  destruct (additive_identity_and_inverse (mkBigNum 123 (-2) (-1)) H1 H2)
    as (Hid & Hinv & _).
  split; [exact Hid|exact Hinv].
Defined.

(** C10, as stated, fails: the exponent the constructor leaves in the object
    is not always the input reduced modulo 2^32.  [new BigNum(10n, 2^31, 1)]
    reduces 2^31 to -2^31, and normalization then moves the trailing zero of
    the coefficient into the exponent, which ends as -2^31 + 1. *)
Lemma stored_exponent_is_not_the_reduced_input :
  ~ (forall c e s, ~ (- 2 ^ 31 <= e < 2 ^ 31) ->
       exponent (new_BigNum c e s) = ToInt32 e).
Proof.
  intros H. specialize (H 10 (2 ^ 31) 1 ltac:(lia)).
  vm_compute in H. discriminate H.
Qed.

(** C10 (amended). The constructor reduces the exponent it is given modulo
    2^32 into [-2^31, 2^31) (the [| 0] coercion); normalization then adds the
    number of trailing decimal zeros it strips from the coefficient, and
    stores 0 with a zero coefficient.  A nonzero coefficient that is not
    divisible by 10 therefore stores exactly the reduced input, and parsing
    "1e2147483648" wraps to the exponent -2147483648. *)
Theorem constructor_truncates_exponent c e s :
  - 2 ^ 31 <= ToInt32 e < 2 ^ 31 /\
  (ToInt32 e - e) mod 2 ^ 32 = 0 /\
  exponent (BigNum_fields c e s) = ToInt32 e /\
  exponent (new_BigNum c e s) = (if c =? 0 then 0 else ToInt32 e + stripped c) /\
  0 <= stripped c /\
  coefficient (new_BigNum c e s) * 10 ^ stripped c = Z.abs c /\
  (Z.rem c 10 <> 0 -> exponent (new_BigNum c e s) = ToInt32 e) /\
  parse "1e2147483648" = Ok (mkBigNum 1 (- 2147483648) 1).
Proof.
  split; [apply ToInt32_range|].
  split; [apply ToInt32_congr|].
  split; [reflexivity|].
  split; [apply new_BigNum_exponent|].
  split; [apply stripped_nonneg|].
  split; [apply new_BigNum_coefficient|].
  split; [|vm_compute; reflexivity].
  intros Hr. rewrite new_BigNum_exponent.
  destruct (Z.eqb_spec c 0) as [-> | Hc]; [now contradiction Hr|].
  unfold stripped. rewrite strip_zeros_fixed by exact Hr. cbn [snd]. lia.
Qed.

Lemma constructor_truncates_exponent_witness :
  exponent (new_BigNum 123 (2 ^ 32 + 7) 1) = 7.
Proof.
  destruct (constructor_truncates_exponent 123 (2 ^ 32 + 7) 1)
    as (_ & _ & _ & _ & _ & _ & H & _).
  rewrite H; [reflexivity|]. vm_compute. intros E; discriminate E.
Defined.

(** * Further properties of the code *)

(** ** The constructor and [_normalize] *)

Lemma strip_zeros_fuel f1 : forall f2 c e,
  c <> 0 -> Z.abs c < 2 ^ Z.of_nat f1 -> Z.abs c < 2 ^ Z.of_nat f2 ->
  strip_zeros f1 c e = strip_zeros f2 c e.
Proof.
  induction f1 as [|f1 IH]; intros f2 c e Hc H1 H2.
  - cbn in H1. lia.
  - destruct f2 as [|f2]; [cbn in H2; lia|].
    cbn [strip_zeros]. destruct (Z.eqb_spec (Z.rem c 10) 0) as [Hr|Hr]; [|reflexivity].
    pose proof (Z.quot_rem' c 10) as Hq. rewrite Hr in Hq.
    rewrite Nat2Z.inj_succ, Z.pow_succ_r in H1, H2 by lia.
    apply IH; lia.
Qed.

Lemma strip_zeros_times_ten c e :
  c <> 0 ->
  strip_zeros (strip_fuel (10 * c)) (10 * c) e =
  strip_zeros (strip_fuel c) c (e + 1).
Proof.
  intros Hc. unfold strip_fuel at 1. cbn [strip_zeros].
  rewrite Z.mul_comm, Z.rem_mul, Z.quot_mul by lia. cbn [Z.eqb].
  pose proof (strip_fuel_enough (c * 10) ltac:(lia)) as H10.
  unfold strip_fuel in H10. rewrite Nat2Z.inj_succ, Z.pow_succ_r in H10 by lia.
  apply strip_zeros_fuel; [assumption|lia|now apply strip_fuel_enough].
Qed.

Lemma strip_zeros_sign fuel : forall c e,
  (fst (strip_zeros fuel c e) <? 0) = (c <? 0).
Proof.
  induction fuel as [|fuel IH]; intros c e; cbn [strip_zeros]; [reflexivity|].
  destruct (Z.eqb_spec (Z.rem c 10) 0) as [Hr|Hr]; [|reflexivity].
  rewrite IH. pose proof (Z.quot_rem' c 10) as Hq. rewrite Hr in Hq.
  destruct (Z.ltb_spec (Z.quot c 10) 0), (Z.ltb_spec c 0); lia.
Qed.

Lemma new_BigNum_sign c e s :
  sign (new_BigNum c e s) =
  if c =? 0 then 1 else if (c <? 0) || (s =? -1) then -1 else 1.
Proof.
  unfold new_BigNum. destruct (Z.eqb_spec c 0) as [-> | Hc]; [reflexivity|].
  rewrite _normalize_nonzero by exact Hc. cbv zeta.
  cbn [BigNum_fields coefficient exponent sign].
  rewrite strip_zeros_sign.
  assert ((c =? 0) = false) as -> by (apply Z.eqb_neq; lia).
  destruct (c <? 0), (s =? -1); reflexivity.
Qed.

Lemma new_BigNum_coefficient_nonneg c e s : 0 <= coefficient (new_BigNum c e s).
Proof.
  destruct (new_BigNum_canonical c e s) as (_ & Hnz & _).
  destruct (Z.eq_dec (coefficient (new_BigNum c e s)) 0) as [E|E]; [lia|].
  destruct (Hnz E). lia.
Qed.

(** The value of a constructed object, in units of 10^k. *)
Lemma new_BigNum_scaled_value c e s k :
  k <= ToInt32 e ->
  scaled_value (new_BigNum c e s) k =
  (if (c <? 0) || (s =? -1) then - Z.abs c else Z.abs c) * 10 ^ (ToInt32 e - k).
Proof.
  intros Hk. unfold scaled_value.
  rewrite new_BigNum_sign, new_BigNum_exponent.
  pose proof (new_BigNum_coefficient c e s) as Hco.
  pose proof (stripped_nonneg c) as Hst.
  destruct (Z.eqb_spec c 0) as [-> | Hc].
  - change (coefficient (new_BigNum 0 e s)) with 0. cbn [Z.ltb Z.compare orb].
    destruct (s =? -1); cbn; lia.
  - replace (ToInt32 e + stripped c - k) with (stripped c + (ToInt32 e - k)) by lia.
    rewrite Z.pow_add_r by lia.
    destruct ((c <? 0) || (s =? -1)); rewrite <- Hco; ring.
Qed.

(** X1. The value the constructor builds.  A negative coefficient or a sign
    argument of -1 gives a negative value (a negative coefficient is negated
    and the sign set to -1, whatever sign was passed); any other sign
    argument counts as +1.  The magnitude is |c| * 10^e for the exponent [e]
    reduced to 32 bits. *)
Theorem constructor_value c e s :
  sign (new_BigNum c e s) =
    (if c =? 0 then 1 else if (c <? 0) || (s =? -1) then -1 else 1) /\
  scaled_value (new_BigNum c e s) (ToInt32 e) =
    (if (c <? 0) || (s =? -1) then - Z.abs c else Z.abs c).
Proof.
  split; [apply new_BigNum_sign|].
  rewrite new_BigNum_scaled_value by lia.
  rewrite Z.sub_diag. cbn [Z.pow]. lia.
Qed.

Lemma new_BigNum_times_ten c e s :
  c <> 0 -> - 2 ^ 31 <= e -> e + 1 < 2 ^ 31 ->
  new_BigNum (10 * c) e s = new_BigNum c (e + 1) s.
Proof.
  intros Hc Hlo Hhi. unfold new_BigNum, _normalize, BigNum_fields.
  cbn [coefficient exponent sign].
  assert ((10 * c =? 0) = false) as -> by (apply Z.eqb_neq; lia).
  assert ((c =? 0) = false) as -> by (apply Z.eqb_neq; lia).
  rewrite strip_zeros_times_ten by exact Hc.
  now rewrite !ToInt32_small by lia.
Qed.

Lemma new_BigNum_times_pow10 k : forall c e s,
  c <> 0 -> - 2 ^ 31 <= e -> e + Z.of_nat k < 2 ^ 31 ->
  new_BigNum (c * 10 ^ Z.of_nat k) e s = new_BigNum c (e + Z.of_nat k) s.
Proof.
  induction k as [|k IH]; intros c e s Hc Hlo Hhi.
  - cbn [Z.of_nat Z.pow]. now rewrite Z.mul_1_r, Z.add_0_r.
  - rewrite Nat2Z.inj_succ, Z.pow_succ_r by lia.
    pose proof (pow10_pos (Z.of_nat k) ltac:(lia)).
    replace (c * (10 * 10 ^ Z.of_nat k)) with (10 * (c * 10 ^ Z.of_nat k)) by ring.
    rewrite new_BigNum_times_ten by nia.
    rewrite IH by lia. f_equal. lia.
Qed.

Lemma constructor_scales c e s k :
  c <> 0 -> 0 <= k -> - 2 ^ 31 <= e -> e + k < 2 ^ 31 ->
  new_BigNum (c * 10 ^ k) e s = new_BigNum c (e + k) s.
Proof.
  intros Hc Hk Hlo Hhi.
  rewrite <- (Z2Nat.id k Hk) in Hhi |- *.
  now apply new_BigNum_times_pow10.
Qed.

(** X2. Trailing zeros of the coefficient are worth as much as the
    exponent: the constructor builds the same object from (c * 10^k, e) and
    from (c, e + k), as long as both exponents fit 32 bits. *)
Theorem constructor_moves_trailing_zeros c e s k :
  c <> 0 -> 0 <= k -> - 2 ^ 31 <= e -> e + k < 2 ^ 31 ->
  new_BigNum (c * 10 ^ k) e s = new_BigNum c (e + k) s.
Proof.
  intros Hc Hk Hlo Hhi.
  rewrite <- (Z2Nat.id k Hk) in Hhi |- *.
  now apply new_BigNum_times_pow10.
Qed.

Lemma constructor_moves_trailing_zeros_witness :
  new_BigNum 1500 (-3) 1 = new_BigNum 15 (-1) 1.
Proof.
  apply (constructor_moves_trailing_zeros 15 (-3) 1 2); lia.
Defined.

(** X3. [from] on a BigInt keeps its value: the object built from [z] has
    sign * coefficient * 10^exponent = z, with a non-negative exponent, and
    is in canonical form. *)
Theorem from_bigint_value z :
  scaled_value (from_bigint z) 0 = z /\
  0 <= exponent (from_bigint z) /\
  canonical (from_bigint z).
Proof.
  unfold from_bigint. split; [|split].
  - rewrite new_BigNum_scaled_value by (rewrite ToInt32_small; lia).
    rewrite ToInt32_small, Z.sub_diag by lia. cbn [Z.pow].
    destruct (Z.ltb_spec z 0); cbn [orb Z.eqb]; lia.
  - rewrite new_BigNum_exponent. pose proof (stripped_nonneg z).
    destruct (z =? 0); [lia|]. rewrite ToInt32_small by lia. lia.
  - apply new_BigNum_canonical.
Qed.

(** ** Alignment, addition and multiplication *)

(** Swapping the operands of [_align] swaps the two coefficients and keeps
    the exponent. *)
Lemma _align_swap a b :
  coefficient a <> 0 \/ coefficient b <> 0 ->
  _align b a =
  (snd (fst (_align a b)), fst (fst (_align a b)), snd (_align a b)).
Proof.
  intros H. unfold _align.
  destruct (Z.eqb_spec (coefficient a) 0) as [Ha|Ha];
    destruct (Z.eqb_spec (coefficient b) 0) as [Hb|Hb];
    try reflexivity; [lia|].
  destruct (Z.eqb_spec (exponent a) (exponent b)) as [He|He].
  - rewrite He, Z.eqb_refl. reflexivity.
  - assert ((exponent b =? exponent a) = false) as ->
      by (apply Z.eqb_neq; lia).
    destruct (Z.gtb_spec (exponent a) (exponent b)),
             (Z.gtb_spec (exponent b) (exponent a)); try lia; reflexivity.
Qed.

(** X4. Addition and multiplication are commutative, for all objects. *)
Theorem add_mul_commutative a b :
  add a b = add b a /\ mul a b = mul b a.
Proof.
  split.
  - unfold add.
    destruct (Z.eqb_spec (coefficient a) 0) as [Ha|Ha];
      destruct (Z.eqb_spec (coefficient b) 0) as [Hb|Hb]; try reflexivity.
    + unfold new_BigNum, BigNum_fields, _normalize.
      cbn [coefficient]. now rewrite Ha, Hb.
    + rewrite (_align_swap a b) by auto.
      destruct (_align a b) as [[aC bC] ex]. cbn [fst snd].
      now rewrite (Z.add_comm bC aC).
  - unfold mul. rewrite orb_comm.
    destruct (_ || _); [reflexivity|].
    now rewrite (Z.mul_comm (coefficient b)), (Z.add_comm (exponent b)),
      (Z.mul_comm (sign b)).
Qed.

(** X5. Multiplication is exact while the sum of the exponents fits 32 bits:
    the product of canonical operands is canonical and its value is the
    product of the values. *)
Theorem mul_exact a b :
  canonical a -> canonical b ->
  - 2 ^ 31 <= exponent a + exponent b < 2 ^ 31 ->
  canonical (mul a b) /\
  scaled_value (mul a b) (exponent a + exponent b) =
    (sign a * coefficient a) * (sign b * coefficient b).
Proof.
  intros Ha Hb He. split; [apply mul_canonical|].
  unfold mul.
  destruct (Z.eqb_spec (coefficient a) 0) as [Hza|Hza];
    [rewrite Hza; cbn [orb]; unfold scaled_value; cbn; lia|].
  destruct (Z.eqb_spec (coefficient b) 0) as [Hzb|Hzb];
    [rewrite Hzb; cbn [orb]; unfold scaled_value; cbn; lia|].
  cbn [orb].
  destruct (canonical_cases a Ha) as [-> | (Hca & _ & Hsa)]; [now contradiction Hza|].
  destruct (canonical_cases b Hb) as [-> | (Hcb & _ & Hsb)]; [now contradiction Hzb|].
  rewrite <- (ToInt32_small (exponent a + exponent b)) at 2 by lia.
  rewrite new_BigNum_scaled_value by lia.
  rewrite Z.sub_diag. cbn [Z.pow].
  assert ((coefficient a * coefficient b <? 0) = false) as ->
    by (apply Z.ltb_ge; nia).
  cbn [orb]. rewrite Z.abs_eq by nia.
  destruct Hsa as [Ea|Ea], Hsb as [Eb|Eb]; rewrite Ea, Eb;
    match goal with
    | |- context [?x * ?y =? -1] =>
        let v := eval vm_compute in (x * y =? -1) in
        change (x * y =? -1) with v
    end; cbv iota; ring.
Qed.

Lemma mul_exact_witness :
  scaled_value (mul (mkBigNum 25 (-1) (-1)) (mkBigNum 4 3 1)) 2 = -100.
Proof.
  assert (Ha : canonical (mkBigNum 25 (-1) (-1))) by canonical_by_computation.
  assert (Hb : canonical (mkBigNum 4 3 1)) by canonical_by_computation.
  exact (proj2 (mul_exact (mkBigNum 25 (-1) (-1)) (mkBigNum 4 3 1) Ha Hb
                  ltac:(cbn; lia))).
Defined.

(** X6. Addition is exact when it needs no alignment: with an operand that
    is zero, or with operands of the same exponent, the sum of canonical
    operands with 32-bit exponents has the sum of their values (in units of
    10^k, for any [k] at or below both exponents). *)
Theorem add_exact_without_alignment a b k :
  canonical a -> canonical b -> int32_exponent a -> int32_exponent b ->
  coefficient a = 0 \/ coefficient b = 0 \/ exponent a = exponent b ->
  k <= exponent a -> k <= exponent b ->
  scaled_value (add a b) k = scaled_value a k + scaled_value b k.
Proof.
  intros Ha Hb Hia Hib Hcase Hka Hkb. unfold int32_exponent in *.
  assert (Hcopy : forall x, canonical x -> - 2 ^ 31 <= exponent x < 2 ^ 31 ->
            new_BigNum (coefficient x) (exponent x) (sign x) = x).
  { intros x Hx Hix. destruct (canonical_cases x Hx) as [-> | (Hc & Hr & Hs)];
      [reflexivity|].
    rewrite new_BigNum_fixed by assumption.
    rewrite ToInt32_small by lia. now destruct x. }
  unfold add.
  destruct (Z.eqb_spec (coefficient a) 0) as [Hza|Hza].
  { rewrite Hcopy by assumption. unfold scaled_value at 2. rewrite Hza. lia. }
  destruct (Z.eqb_spec (coefficient b) 0) as [Hzb|Hzb].
  { rewrite Hcopy by assumption. unfold scaled_value at 3. rewrite Hzb. lia. }
  destruct Hcase as [H | [H | He]]; [lia|lia|].
  unfold _align.
  assert ((coefficient a =? 0) = false) as -> by (apply Z.eqb_neq; lia).
  assert ((coefficient b =? 0) = false) as -> by (apply Z.eqb_neq; lia).
  rewrite He, Z.eqb_refl.
  set (sum := coefficient a * sign a + coefficient b * sign b).
  assert (Hsum : scaled_value a k + scaled_value b k =
                 sum * 10 ^ (exponent b - k)).
  { unfold scaled_value, sum. rewrite He. ring. }
  rewrite Hsum.
  destruct (Z.eqb_spec sum 0) as [Hz|Hnz].
  { rewrite Hz. unfold scaled_value. cbn. lia. }
  rewrite new_BigNum_scaled_value by (rewrite ToInt32_small; lia).
  rewrite ToInt32_small by lia.
  destruct (Z.ltb_spec sum 0) as [Hneg|Hpos]; cbn [Z.eqb Pos.eqb].
  - assert ((- sum <? 0) = false) as -> by (apply Z.ltb_ge; lia).
    cbn [orb]. rewrite Z.abs_eq by lia. ring.
  - assert ((sum <? 0) = false) as -> by (apply Z.ltb_ge; lia).
    cbn [orb]. rewrite Z.abs_eq by lia. ring.
Qed.

Lemma add_exact_without_alignment_witness :
  scaled_value (add (mkBigNum 123 (-2) 1) (mkBigNum 77 (-2) 1)) (-2) = 200.
Proof.
  assert (Ha : canonical (mkBigNum 123 (-2) 1)) by canonical_by_computation.
  assert (Hb : canonical (mkBigNum 77 (-2) 1)) by canonical_by_computation.
  assert (Hia : int32_exponent (mkBigNum 123 (-2) 1)) by canonical_by_computation.
  assert (Hib : int32_exponent (mkBigNum 77 (-2) 1)) by canonical_by_computation.
  exact (add_exact_without_alignment (mkBigNum 123 (-2) 1) (mkBigNum 77 (-2) 1)
           (-2) Ha Hb Hia Hib (or_intror (or_intror eq_refl))
           ltac:(cbn; lia) ltac:(cbn; lia)).
Defined.

(** ** Comparison *)

Lemma cmp_swap a b :
  (cmp a b = -1 \/ cmp a b = 0 \/ cmp a b = 1) /\
  cmp b a = - cmp a b.
Proof.
  unfold cmp. rewrite (andb_comm (coefficient b =? 0)).
  destruct ((coefficient a =? 0) && (coefficient b =? 0)) eqn:Hz; [auto|].
  assert (Hnz : coefficient a <> 0 \/ coefficient b <> 0).
  { apply andb_false_iff in Hz. destruct Hz as [H|H]; apply Z.eqb_neq in H; auto. }
  rewrite (Z.eqb_sym (sign b)).
  destruct (Z.eqb_spec (sign a) (sign b)) as [Hs|Hs]; cbn [negb].
  - rewrite (_align_swap a b Hnz).
    destruct (_align a b) as [[aC bC] ex]. cbn [fst snd].
    rewrite (Z.eqb_sym bC). rewrite <- Hs.
    destruct (Z.eqb_spec aC bC) as [E|E]; [auto|].
    destruct (Z.gtb_spec aC bC), (Z.gtb_spec bC aC); try lia;
      destruct (sign a =? 1); cbn; auto.
  - destruct (Z.gtb_spec (sign a) (sign b)), (Z.gtb_spec (sign b) (sign a));
      try lia; cbn; auto.
Qed.

(** X7. [cmp] returns -1, 0 or 1, and swapping the operands negates the
    result, for all objects. *)
Theorem cmp_antisymmetric a b :
  (cmp a b = -1 \/ cmp a b = 0 \/ cmp a b = 1) /\
  cmp b a = - cmp a b.
Proof. exact (cmp_swap a b). Qed.

Lemma times_pow10_trailing_zero c d :
  0 < d -> Z.rem (c * 10 ^ d) 10 = 0.
Proof.
  intros Hd. replace d with (Z.succ (d - 1)) by lia.
  rewrite Z.pow_succ_r by lia.
  replace (c * (10 * 10 ^ (d - 1))) with (c * 10 ^ (d - 1) * 10) by ring.
  apply Z.rem_mul. lia.
Qed.

Lemma cmp_zero_iff a b :
  cmp a b = 0 <->
  (coefficient a = 0 /\ coefficient b = 0) \/
  ((coefficient a <> 0 \/ coefficient b <> 0) /\ sign a = sign b /\
   fst (fst (_align a b)) = snd (fst (_align a b))).
Proof.
  unfold cmp.
  destruct (Z.eqb_spec (coefficient a) 0) as [Ha|Ha];
    destruct (Z.eqb_spec (coefficient b) 0) as [Hb|Hb]; cbn [andb];
    [tauto| | |];
    (destruct (Z.eqb_spec (sign a) (sign b)) as [Hs|Hs]; cbn [negb];
     [ destruct (_align a b) as [[aC bC] ex]; cbn [fst snd];
       destruct (Z.eqb_spec aC bC) as [E|E];
       [ split; [intros _; right; auto|reflexivity]
       | split; [|intros [H|(_ & _ & H)]; lia];
         destruct (aC >? bC), (sign a =? 1); discriminate ]
     | split; [|intros [H|(_ & H & _)]; lia];
       destruct (sign a >? sign b); discriminate ]).
Qed.

Lemma canonical_zero_eq x :
  canonical x -> coefficient x = 0 -> x = mkBigNum 0 0 1.
Proof.
  intros Hx Hc. destruct (canonical_cases x Hx) as [E | (H & _)]; [exact E|lia].
Qed.

(** X8. On canonical operands [eq] is equality of the triples: [cmp]
    returns 0 exactly when the two objects have the same sign, coefficient
    and exponent. *)
Theorem eq_is_structural a b :
  canonical a -> canonical b ->
  (Derived.eq a b = true <-> a = b) /\ (cmp a b = 0 <-> a = b).
Proof.
  intros Ha Hb.
  assert (H : cmp a b = 0 <-> a = b); [|split; [|exact H]].
  2:{ unfold Derived.eq. rewrite Z.eqb_eq. exact H. }
  rewrite cmp_zero_iff. split.
  - intros [[Hza Hzb] | (Hnz & Hs & Hal)].
    { now rewrite (canonical_zero_eq a Ha Hza), (canonical_zero_eq b Hb Hzb). }
    destruct (canonical_cases a Ha) as [Ea | (Hca & Hra & Hsa)];
      destruct (canonical_cases b Hb) as [Eb | (Hcb & Hrb & Hsb)].
    + congruence.
    + subst a. unfold _align in Hal. cbn [coefficient Z.eqb fst snd] in Hal.
      destruct Hsb as [E|E]; rewrite E in Hal; lia.
    + subst b. unfold _align in Hal. cbn [coefficient Z.eqb] in Hal.
      destruct (Z.eqb_spec (coefficient a) 0); [lia|]. cbn [fst snd] in Hal.
      destruct Hsa as [E|E]; rewrite E in Hal; lia.
    + unfold _align in Hal.
      destruct (Z.eqb_spec (coefficient a) 0); [lia|].
      destruct (Z.eqb_spec (coefficient b) 0); [lia|].
      assert (Hmag : forall x y, x * sign a = y * sign b -> x = y).
      { intros x y. rewrite <- Hs. destruct Hsa as [E|E]; rewrite E; lia. }
      destruct (Z.eqb_spec (exponent a) (exponent b)) as [He|He].
      * cbn [fst snd] in Hal. apply Hmag in Hal.
        destruct a, b. cbn [coefficient exponent sign] in *. congruence.
      * exfalso. destruct (Z.gtb_spec (exponent a) (exponent b)) as [Hgt|Hle];
          cbn [fst snd] in Hal; apply Hmag in Hal.
        -- apply Hra. rewrite Hal. apply times_pow10_trailing_zero. lia.
        -- apply Hrb. rewrite <- Hal. apply times_pow10_trailing_zero. lia.
  - intros <-.
    destruct (Z.eq_dec (coefficient a) 0) as [Hz|Hz]; [now left|].
    right. split; [now left|]. split; [reflexivity|].
    unfold _align. destruct (Z.eqb_spec (coefficient a) 0); [lia|].
    now rewrite Z.eqb_refl.
Qed.

Lemma eq_is_structural_witness :
  cmp (mkBigNum 15 2 (-1)) (mkBigNum 15 2 (-1)) = 0.
Proof.
  assert (Ha : canonical (mkBigNum 15 2 (-1))) by canonical_by_computation.
  apply (proj2 (eq_is_structural (mkBigNum 15 2 (-1)) (mkBigNum 15 2 (-1)) Ha Ha)).
  reflexivity.
Defined.

(** X9. Comparing with zero reads the sign: for a canonical [x],
    [x.cmp(ZERO)] is 0 when [x] is zero and the sign of [x] otherwise, and
    [ZERO.cmp(x)] is the opposite. *)
Theorem cmp_zero_is_sign x :
  canonical x ->
  cmp x ZERO = (if coefficient x =? 0 then 0 else sign x) /\
  cmp ZERO x = (if coefficient x =? 0 then 0 else - sign x).
Proof.
  intros Hx.
  destruct (canonical_cases x Hx) as [-> | (Hc & _ & Hs)]; [split; reflexivity|].
  unfold cmp, _align. change (coefficient ZERO) with 0. change (sign ZERO) with 1.
  change (exponent ZERO) with 0.
  destruct (Z.eqb_spec (coefficient x) 0); [lia|].
  change (0 =? 0) with true. cbn [andb].
  destruct Hs as [E|E]; rewrite E.
  - change (1 =? 1) with true. cbn [negb fst snd].
    destruct (Z.eqb_spec (coefficient x * 1) 0); [lia|].
    destruct (Z.eqb_spec 0 (coefficient x * 1)); [lia|].
    destruct (Z.gtb_spec (coefficient x * 1) 0), (Z.gtb_spec 0 (coefficient x * 1));
      lia.
  - split; reflexivity.
Qed.

Lemma cmp_zero_is_sign_witness :
  cmp (mkBigNum 7 (-3) (-1)) ZERO = -1 /\ cmp ZERO (mkBigNum 7 (-3) (-1)) = 1.
Proof.
  apply (cmp_zero_is_sign (mkBigNum 7 (-3) (-1))).
  canonical_by_computation.
Defined.

(** ** Powers *)

Lemma not_multiple_of_ten c :
  c mod 10 <> 0 <-> (c mod 2 <> 0 \/ c mod 5 <> 0).
Proof.
  pose proof (Z.div_mod c 10 ltac:(lia)).
  pose proof (Z.div_mod c 2 ltac:(lia)).
  pose proof (Z.div_mod c 5 ltac:(lia)).
  pose proof (Z.mod_pos_bound c 10 ltac:(lia)).
  pose proof (Z.mod_pos_bound c 2 ltac:(lia)).
  pose proof (Z.mod_pos_bound c 5 ltac:(lia)).
  lia.
Qed.

Lemma pow_mod_nonzero m c k :
  (m = 2 \/ m = 5) -> c mod m <> 0 -> 0 <= k -> (c ^ k) mod m <> 0.
Proof.
  intros Hm Hc Hk. pattern k. apply natlike_ind; [| |exact Hk].
  - destruct Hm as [-> | ->]; cbn; lia.
  - intros j Hj IH. rewrite Z.pow_succ_r by lia.
    rewrite Z.mul_mod by lia.
    pose proof (Z.mod_pos_bound c m ltac:(lia)) as Hb1.
    pose proof (Z.mod_pos_bound (c ^ j) m ltac:(lia)) as Hb2.
    set (x := c mod m) in *. set (y := c ^ j mod m) in *.
    destruct Hm as [-> | ->].
    + assert (x = 1) as -> by lia. assert (y = 1) as -> by lia.
      vm_compute. intros E; discriminate E.
    + assert (Hx : x = 1 \/ x = 2 \/ x = 3 \/ x = 4) by lia.
      assert (Hy : y = 1 \/ y = 2 \/ y = 3 \/ y = 4) by lia.
      destruct Hx as [-> | [-> | [-> | ->]]];
        destruct Hy as [-> | [-> | [-> | ->]]];
        vm_compute; intros E; discriminate E.
Qed.

Lemma power_no_trailing_zero c k :
  0 < c -> Z.rem c 10 <> 0 -> 0 <= k -> Z.rem (c ^ k) 10 <> 0.
Proof.
  intros Hpos Hc Hk.
  pose proof (Z.pow_pos_nonneg c k Hpos Hk) as Hck.
  rewrite Z.rem_mod_nonneg in * by lia.
  apply not_multiple_of_ten.
  apply not_multiple_of_ten in Hc. destruct Hc as [H|H].
  - left. apply pow_mod_nonzero; auto.
  - right. apply pow_mod_nonzero; auto.
Qed.

Lemma sign_power s k : s = 1 \/ s = -1 -> 0 <= k -> s ^ k = 1 \/ s ^ k = -1.
Proof.
  intros Hs Hk. pattern k. apply natlike_ind; [now left| |exact Hk].
  intros j Hj IH. rewrite Z.pow_succ_r by lia.
  destruct Hs as [-> | ->], IH as [-> | ->]; cbn; auto.
Qed.

(** Multiplying two powers of a canonical value gives the power of the
    sum. *)
Lemma mul_power_of a i j :
  canonical a -> 0 <= i -> 0 <= j -> 0 < i + j ->
  mul (power_of a i) (power_of a j) = power_of a (i + j).
Proof.
  intros Ha Hi Hj Hij.
  destruct (canonical_cases a Ha) as [-> | (Hc & Hr & Hs)].
  - (* zero *)
    unfold power_of, mul. cbn [coefficient exponent sign].
    rewrite !Z.mul_0_r, !Z.pow_1_l, (Z.pow_0_l (i + j)) by lia.
    change (ToInt32 0) with 0.
    destruct (Z.eq_dec i 0) as [-> | Hi'].
    + rewrite (Z.pow_0_l j) by lia. now rewrite orb_true_r.
    + rewrite (Z.pow_0_l i) by lia. reflexivity.
  - unfold power_of.
    pose proof (Z.pow_pos_nonneg (coefficient a) i Hc Hi).
    pose proof (Z.pow_pos_nonneg (coefficient a) j Hc Hj).
    rewrite mul_fixed; cbn [coefficient exponent sign];
      rewrite <- ?Z.pow_add_r by lia; try assumption.
    + f_equal. rewrite ToInt32_add_l, ToInt32_add_r. f_equal. ring.
    + apply power_no_trailing_zero; [assumption|assumption|lia].
    + apply sign_power; [assumption|lia].
Qed.

(** The invariant of the loop of [pow]: with [res] the [i]-th and [base] the
    [j]-th power of [a], the loop leaves the power [i + j * exp] in [res]. *)
Lemma pow_loop_power_of a fuel : forall i j ex,
  canonical a -> 0 <= i -> 0 < j -> 0 <= ex < 2 ^ 31 ->
  ex < 2 ^ Z.of_nat fuel ->
  fst (fst (pow_loop fuel (power_of a i) (power_of a j) ex)) =
  power_of a (i + j * ex).
Proof.
  intros i j ex Ha. revert i j ex.
  induction fuel as [|fuel IH]; intros i j ex Hi Hj Hex Hf.
  - cbn in Hf. assert (ex = 0) as -> by lia.
    cbn [pow_loop fst]. f_equal. lia.
  - rewrite pow_loop_S.
    destruct (Z.gtb_spec ex 0) as [Hpos|Hzero].
    2:{ assert (ex = 0) as -> by lia. cbn [fst]. f_equal. lia. }
    rewrite ToInt32_small by lia.
    rewrite shiftr_1_half.
    change 1 with (Z.ones 1) at 1. rewrite Z.land_ones by lia.
    change (2 ^ 1) with 2.
    pose proof (Z.div_mod ex 2 ltac:(lia)) as Hdm.
    pose proof (Z.mod_pos_bound ex 2 ltac:(lia)) as Hmb.
    rewrite Nat2Z.inj_succ, Z.pow_succ_r in Hf by lia.
    rewrite (mul_power_of a j j) by (assumption || lia).
    destruct (Z.eqb_spec (ex mod 2) 0) as [Hev|Hodd].
    + rewrite IH by lia. f_equal.
      rewrite Hdm at 2. rewrite Hev. ring.
    + rewrite (mul_power_of a i j) by (assumption || lia).
      rewrite IH by lia. f_equal.
      assert (Hone : ex mod 2 = 1) by lia.
      rewrite Hdm at 2. rewrite Hone. ring.
Qed.

Lemma power_of_zero a : power_of a 0 = mkBigNum 1 0 1.
Proof. unfold power_of. now rewrite !Z.pow_0_r. Qed.

Lemma power_of_one a :
  canonical a ->
  new_BigNum (coefficient a) (exponent a) (sign a) = power_of a 1.
Proof.
  intros Ha. unfold power_of. rewrite !Z.pow_1_r, Z.mul_1_l.
  destruct (canonical_cases a Ha) as [-> | (Hc & Hr & Hs)]; [reflexivity|].
  now apply new_BigNum_fixed.
Qed.

Lemma pow_positive_power_of a n :
  canonical a -> 0 < n < 2 ^ 31 -> pow_positive a n = power_of a n.
Proof.
  intros Ha Hn. unfold pow_positive.
  rewrite (power_of_one a Ha).
  change (new_BigNum 1 0 1) with (mkBigNum 1 0 1). rewrite <- (power_of_zero a).
  pose proof (pow_loop_power_of a 32 0 1 n Ha ltac:(lia) ltac:(lia) ltac:(lia)) as H.
  destruct (pow_loop 32 _ _ n) as [[r b] ex]. cbn [fst] in H.
  rewrite H; [f_equal; lia|].
  change (Z.of_nat 32) with 32. lia.
Qed.

(** X10. For an exponent [n] with 0 < n < 2^31, [pow] computes the exact
    [n]-th power of a canonical value by square-and-multiply: the coefficient
    to the power [n], the sign to the power [n], and the exponent [n * e]
    reduced to 32 bits. *)
Theorem pow_is_the_power a n p :
  canonical a -> 0 < n < 2 ^ 31 ->
  pow a (Integer n) p =
    Ok (mkBigNum (coefficient a ^ n) (ToInt32 (n * exponent a)) (sign a ^ n)).
Proof.
  intros Ha Hn. unfold pow.
  destruct (Z.eqb_spec n 0); [lia|].
  destruct (Z.gtb_spec n 0); [|lia].
  now rewrite pow_positive_power_of.
Qed.

Lemma pow_is_the_power_witness :
  pow (mkBigNum 3 (-1) (-1)) (Integer 5) 40 = Ok (mkBigNum 243 (-5) (-1)).
Proof.
  apply (pow_is_the_power (mkBigNum 3 (-1) (-1)) 5 40);
    [canonical_by_computation|lia].
Defined.

(** X11. An exponent whose bit 31 is set makes the loop of [pow] stop after
    one iteration, because [exp >>= 1] works on 32 bits and leaves a negative
    number: the result is one for an even exponent and the base itself
    (rebuilt by the constructor) for an odd one.  So [a.pow(2^31)] is one for
    every [a]. *)
Theorem pow_stops_on_bit_31 a n p :
  canonical a -> 0 < n -> ToInt32 n < 0 ->
  pow a (Integer n) p =
    Ok (if n mod 2 =? 0 then mkBigNum 1 0 1
        else mkBigNum (coefficient a) (ToInt32 (exponent a)) (sign a)).
Proof.
  intros Ha Hn Hwrap. unfold pow.
  destruct (Z.eqb_spec n 0); [lia|].
  destruct (Z.gtb_spec n 0); [|lia].
  f_equal. unfold pow_positive.
  rewrite (power_of_one a Ha).
  change (new_BigNum 1 0 1) with (mkBigNum 1 0 1). rewrite <- (power_of_zero a).
  change 32%nat with (S (S 30)). rewrite pow_loop_S.
  destruct (Z.gtb_spec n 0); [|lia].
  rewrite pow_loop_S, shiftr_1_half.
  assert (Hhalf : ToInt32 n / 2 < 0) by (apply Z.div_lt_upper_bound; lia).
  destruct (Z.gtb_spec (ToInt32 n / 2) 0); [lia|].
  change 1 with (Z.ones 1) at 1. rewrite Z.land_ones by lia.
  change (2 ^ 1) with 2.
  assert (Hpar : ToInt32 n mod 2 = n mod 2).
  { destruct (ToInt32_decomp n) as [k ->].
    replace (n + 2 ^ 32 * k) with (n + (2 ^ 31 * k) * 2) by lia.
    now rewrite Z.mod_add by lia. }
  rewrite Hpar.
  destruct (n mod 2 =? 0).
  - apply power_of_zero.
  - rewrite (mul_power_of a 0 1) by (assumption || lia).
    unfold power_of. cbn [Z.add]. now rewrite !Z.pow_1_r, Z.mul_1_l.
Qed.

Lemma pow_stops_on_bit_31_witness :
  pow (mkBigNum 7 0 1) (Integer (2 ^ 31)) 40 = Ok (mkBigNum 1 0 1).
Proof.
  apply (pow_stops_on_bit_31 (mkBigNum 7 0 1) (2 ^ 31) 40);
    [canonical_by_computation|lia|vm_compute; reflexivity].
Defined.

(** X12. A negative exponent [n], -2^31 < n < 0, divides one by the power:
    on a zero base this fails with DivisionByZeroError; on a nonzero
    canonical base, with a precision of at least -5, it returns a canonical
    value. *)
Theorem pow_negative_exponent a n p :
  canonical a -> - 2 ^ 31 < n < 0 ->
  (coefficient a = 0 -> pow a (Integer n) p = Err DivisionByZeroError) /\
  (coefficient a <> 0 -> -5 <= p ->
   exists r, pow a (Integer n) p = Ok r /\ canonical r).
Proof.
  intros Ha Hn. unfold pow.
  destruct (Z.eqb_spec n 0); [lia|].
  destruct (Z.gtb_spec n 0); [lia|].
  rewrite from_one_eq. cbn [bind].
  rewrite pow_positive_power_of by (assumption || lia).
  split.
  - intros Hz. apply div_by_zero. unfold power_of. cbn [coefficient].
    rewrite Hz. apply Z.pow_0_l. lia.
  - intros Hnz Hp.
    destruct (canonical_cases a Ha) as [-> | (Hc & _)]; [now contradiction Hnz|].
    assert (Hpow : coefficient (power_of a (- n)) <> 0).
    { unfold power_of. cbn [coefficient].
      pose proof (Z.pow_pos_nonneg (coefficient a) (- n) Hc ltac:(lia)). lia. }
    destruct (div_returns (mkBigNum 1 0 1) (power_of a (- n)) p Hpow Hp) as [r Hr].
    exists r. split; [exact Hr|]. eapply div_canonical. exact Hr.
Qed.

Lemma pow_negative_exponent_witness :
  pow ZERO (Integer (-2)) 40 = Err DivisionByZeroError.
Proof.
  apply (proj1 (pow_negative_exponent ZERO (-2) 40 ZERO_canonical ltac:(lia))).
  reflexivity.
Defined.

(** ** Division *)

Lemma toString_int_nonneg q : 0 <= q -> toString_int q = nat_toString q.
Proof.
  intros Hq. unfold toString_int. destruct (Z.ltb_spec q 0); [lia|reflexivity].
Qed.

(** The number of digits of a non-negative integer bounds it. *)
Lemma digits_bound q :
  0 <= q ->
  q < 10 ^ strlen (toString_int q) /\
  (0 < q -> 10 ^ (strlen (toString_int q) - 1) <= q) /\
  0 < strlen (toString_int q).
Proof.
  intros Hq. rewrite toString_int_nonneg by exact Hq.
  destruct (nat_toString_spec q Hq) as (Hd & Hne & Hv & Hlead).
  pose proof (value_bound _ Hd) as Hb. rewrite Hv in Hb.
  split; [apply Hb|]. split; [exact Hlead|].
  unfold strlen. destruct (nat_toString q); [now contradiction Hne|cbn; lia].
Qed.

Lemma strlen_pow10 k : 0 <= k -> strlen (toString_int (10 ^ k)) = k + 1.
Proof.
  intros Hk. pose proof (pow10_pos k Hk) as Hp.
  destruct (digits_bound (10 ^ k) ltac:(lia)) as (Hub & Hlb & Hlen).
  specialize (Hlb Hp).
  apply Z.pow_lt_mono_r_iff in Hub; [|lia|lia].
  apply Z.pow_le_mono_r_iff in Hlb; lia.
Qed.

Lemma new_BigNum_coefficient_le c e s :
  0 <= c -> 0 <= coefficient (new_BigNum c e s) <= c.
Proof.
  intros Hc. pose proof (new_BigNum_coefficient c e s) as H.
  pose proof (new_BigNum_coefficient_nonneg c e s) as Hn.
  pose proof (pow10_pos (stripped c) (stripped_nonneg c)).
  rewrite Z.abs_eq in H by lia. nia.
Qed.

Lemma new_BigNum_coefficient_below c e s p :
  1 <= p -> 0 <= c <= 10 ^ p -> 0 <= coefficient (new_BigNum c e s) < 10 ^ p.
Proof.
  intros Hp Hc. pose proof (new_BigNum_coefficient_le c e s ltac:(lia)) as Hle.
  split; [lia|].
  destruct (Z.eq_dec (coefficient (new_BigNum c e s)) (10 ^ p)) as [E|E]; [|lia].
  exfalso. destruct (new_BigNum_canonical c e s) as (_ & Hnz & _).
  pose proof (pow10_pos p ltac:(lia)).
  destruct (Hnz ltac:(lia)) as [_ Hr]. apply Hr. rewrite E.
  rewrite <- (Z.mul_1_l (10 ^ p)). apply times_pow10_trailing_zero. lia.
Qed.

(** X13. [div] keeps at most [precision] significant digits: for canonical
    operands, a nonzero divisor and a precision of at least 1, it returns a
    value whose coefficient is below 10^precision. *)
Theorem div_keeps_precision_digits a b p :
  canonical a -> canonical b -> coefficient b <> 0 -> 1 <= p ->
  exists r, div a b p = Ok r /\ 0 <= coefficient r < 10 ^ p.
Proof.
  intros Ha Hb Hnz Hp. pose proof (pow10_pos p ltac:(lia)) as Hpp.
  unfold div.
  destruct (Z.eqb_spec (coefficient b) 0); [lia|].
  destruct (Z.eqb_spec (coefficient a) 0) as [Hza|Hza].
  { exists ZERO. split; [reflexivity|]. change (coefficient ZERO) with 0. lia. }
  destruct (canonical_cases a Ha) as [-> | (Hca & _)]; [now contradiction Hza|].
  destruct (canonical_cases b Hb) as [-> | (Hcb & _)]; [now contradiction Hnz|].
  rewrite pow10_ok by lia. cbn [bind].
  pose proof (pow10_pos (p + 5) ltac:(lia)) as Hscale.
  set (q0 := Z.quot (coefficient a * 10 ^ (p + 5)) (coefficient b)).
  assert (Hq0 : 0 <= q0) by (apply Z.quot_pos; nia).
  destruct (digits_bound q0 Hq0) as (Hub & _ & Hlen).
  set (L := strlen (toString_int q0)) in *.
  destruct (Z.gtb_spec L p) as [Hgt|Hle].
  - rewrite pow10_ok by lia. cbn [bind].
    pose proof (pow10_pos (L - p) ltac:(lia)) as Hdrop.
    eexists. split; [reflexivity|].
    apply new_BigNum_coefficient_below; [lia|].
    rewrite (Z.quot_div_nonneg q0) by lia.
    assert (Hq : 0 <= q0 / 10 ^ (L - p) < 10 ^ p).
    { split; [apply Z.div_pos; lia|].
      apply Z.div_lt_upper_bound; [lia|].
      rewrite <- Z.pow_add_r by lia.
      now replace (L - p + p) with L by lia. }
    destruct (_ >=? _); lia.
  - eexists. split; [reflexivity|].
    apply new_BigNum_coefficient_below; [lia|].
    assert (10 ^ L <= 10 ^ p) by (apply Z.pow_le_mono_r; lia). lia.
Qed.

Lemma div_keeps_precision_digits_witness :
  exists r, div (mkBigNum 1 0 1) (mkBigNum 3 0 1) 5 = Ok r /\
            0 <= coefficient r < 10 ^ 5.
Proof.
  apply (div_keeps_precision_digits (mkBigNum 1 0 1) (mkBigNum 3 0 1) 5);
    [canonical_by_computation|canonical_by_computation|cbn; lia|lia].
Defined.

(** X14. A nonzero canonical value divided by itself is one, for every
    precision from 1 to 2^31. *)
Theorem div_by_itself a p :
  canonical a -> coefficient a <> 0 -> 1 <= p <= 2 ^ 31 ->
  div a a p = Ok (mkBigNum 1 0 1).
Proof.
  intros Ha Hnz Hp.
  destruct (canonical_cases a Ha) as [-> | (Hc & _ & Hs)]; [now contradiction Hnz|].
  unfold div.
  destruct (Z.eqb_spec (coefficient a) 0); [lia|].
  rewrite pow10_ok by lia. cbn [bind].
  rewrite (Z.mul_comm (coefficient a)), Z.quot_mul by lia.
  rewrite strlen_pow10 by lia.
  destruct (Z.gtb_spec (p + 5 + 1) p); [|lia].
  replace (p + 5 + 1 - p) with 6 by lia.
  rewrite pow10_ok by lia. cbn [bind].
  replace (10 ^ (p + 5)) with (10 ^ (p - 1) * 10 ^ 6)
    by (rewrite <- Z.pow_add_r by lia; f_equal; lia).
  rewrite Z.rem_mul, Z.quot_mul by lia.
  change (0 * 2 >=? 10 ^ 6) with false. cbv iota.
  rewrite (sign_square (sign a) Hs).
  rewrite <- (Z.mul_1_l (10 ^ (p - 1))).
  rewrite <- (Z2Nat.id (p - 1)) by lia.
  rewrite new_BigNum_times_pow10 by lia.
  rewrite Z2Nat.id by lia.
  replace (exponent a - exponent a - (p + 5) + 6 + (p - 1)) with 0 by lia.
  reflexivity.
Qed.

Lemma div_by_itself_witness :
  div (mkBigNum 37 (-2) (-1)) (mkBigNum 37 (-2) (-1)) 40 = Ok (mkBigNum 1 0 1).
Proof.
  apply (div_by_itself (mkBigNum 37 (-2) (-1)) 40);
    [canonical_by_computation|cbn; lia|lia].
Defined.

(** X15. [div] rounds half up.  With [E = e_a - e_b - (precision + 5)] the
    exponent of the raw quotient [q0] and [d] the number of digits dropped,
    the result differs from [q0], in units of 10^E, by at most half of 10^d
    (the sign is the product of the signs); and [q0] is the quotient of the
    coefficients scaled by 10^(precision + 5), cut to an integer. *)
Theorem div_rounds_half_up a b p :
  canonical a -> canonical b ->
  coefficient a <> 0 -> coefficient b <> 0 -> 1 <= p ->
  - 2 ^ 31 <= exponent a - exponent b - (p + 5) + dropped_digits a b p < 2 ^ 31 ->
  exists r,
    div a b p = Ok r /\
    2 * Z.abs (scaled_value r (exponent a - exponent b - (p + 5))
               - sign a * sign b * raw_quotient a b p)
      <= 10 ^ dropped_digits a b p /\
    raw_quotient a b p * coefficient b <= coefficient a * 10 ^ (p + 5)
      < (raw_quotient a b p + 1) * coefficient b.
Proof.
  intros Ha Hb Hza Hzb Hp. unfold dropped_digits, raw_quotient.
  destruct (canonical_cases a Ha) as [-> | (Hca & _ & Hsa)]; [now contradiction Hza|].
  destruct (canonical_cases b Hb) as [-> | (Hcb & _ & Hsb)]; [now contradiction Hzb|].
  pose proof (pow10_pos (p + 5) ltac:(lia)) as Hscale.
  unfold div.
  destruct (Z.eqb_spec (coefficient b) 0); [lia|].
  destruct (Z.eqb_spec (coefficient a) 0); [lia|].
  rewrite pow10_ok by lia. cbn [bind].
  rewrite (Z.quot_div_nonneg (coefficient a * 10 ^ (p + 5))) by nia.
  set (q0 := coefficient a * 10 ^ (p + 5) / coefficient b).
  assert (Hq0 : 0 <= q0) by (apply Z.div_pos; nia).
  set (L := strlen (toString_int q0)).
  set (E := exponent a - exponent b - (p + 5)).
  intros HE.
  assert (Hss : sign a * sign b = 1 \/ sign a * sign b = -1)
    by (destruct Hsa as [-> | ->], Hsb as [-> | ->]; auto).
  assert (Hval : forall q x, 0 <= q -> 0 <= x -> - 2 ^ 31 <= E + x < 2 ^ 31 ->
            scaled_value (new_BigNum q (E + x) (sign a * sign b)) E =
            sign a * sign b * (q * 10 ^ x)).
  { intros q x Hq Hx Hr.
    rewrite new_BigNum_scaled_value by (rewrite ToInt32_small; lia).
    rewrite ToInt32_small by lia.
    replace (E + x - E) with x by lia.
    assert ((q <? 0) = false) as -> by (apply Z.ltb_ge; lia).
    cbn [orb]. rewrite Z.abs_eq by lia.
    destruct Hss as [-> | ->]; [change (1 =? -1) with false|change (-1 =? -1) with true];
      cbv iota; ring. }
  assert (Habs : forall x y, Z.abs (sign a * sign b * x - sign a * sign b * y)
                             = Z.abs (x - y)).
  { intros x y. destruct Hss as [-> | ->]; lia. }
  assert (Hquot : q0 * coefficient b <= coefficient a * 10 ^ (p + 5)
                  < (q0 + 1) * coefficient b).
  { pose proof (Z.div_mod (coefficient a * 10 ^ (p + 5)) (coefficient b) ltac:(lia)).
    pose proof (Z.mod_pos_bound (coefficient a * 10 ^ (p + 5)) (coefficient b) Hcb).
    fold q0 in H. nia. }
  destruct (Z.gtb_spec L p) as [Hgt|Hle].
  - rewrite Z.max_r in * by lia.
    rewrite pow10_ok by lia. cbn [bind].
    pose proof (pow10_pos (L - p) ltac:(lia)) as Hd.
    rewrite (Z.quot_div_nonneg q0), (Z.rem_mod_nonneg q0) by lia.
    pose proof (Z.div_mod q0 (10 ^ (L - p)) ltac:(lia)) as Hdm.
    pose proof (Z.mod_pos_bound q0 (10 ^ (L - p)) Hd) as Hmb.
    assert (Hq : 0 <= q0 / 10 ^ (L - p)) by (apply Z.div_pos; lia).
    eexists. split; [reflexivity|]. split; [|exact Hquot].
    fold E. rewrite Hval by (try lia; destruct (_ >=? _); lia).
    rewrite Habs.
    destruct (Z.geb_spec (q0 mod 10 ^ (L - p) * 2) (10 ^ (L - p))); nia.
  - rewrite Z.max_l in * by lia.
    eexists. split; [reflexivity|]. split; [|exact Hquot].
    rewrite <- (Z.add_0_r E) at 1.
    rewrite Hval by lia. rewrite Habs. cbn [Z.pow]. lia.
Qed.

Lemma div_rounds_half_up_witness :
  exists r,
    div (mkBigNum 2 0 1) (mkBigNum 3 0 (-1)) 3 = Ok r /\
    2 * Z.abs (scaled_value r (-8) - (- 66666666)) <= 10 ^ 5.
Proof.
  destruct (div_rounds_half_up (mkBigNum 2 0 1) (mkBigNum 3 0 (-1)) 3)
    as (r & Hr & Hb & _);
    [canonical_by_computation|canonical_by_computation|cbn; lia|cbn; lia|lia
    |split; [vm_compute; intros E; discriminate E|vm_compute; reflexivity]|].
  exists r. split; [exact Hr|exact Hb].
Defined.

(** ** Text and back *)

Lemma digit_not_space c : is_digit c = true -> is_space c = false.
Proof.
  unfold is_digit, is_space. intros H.
  apply andb_true_iff in H. destruct H as [H1 H2].
  apply Z.leb_le in H1, H2.
  destruct (Z.leb_spec 9 (code c)), (Z.leb_spec (code c) 13),
    (Z.eqb_spec (code c) 32), (Z.eqb_spec (code c) 160); cbn; lia || reflexivity.
Qed.

Lemma digit_is_not_point c : is_digit c = true -> Ascii.eqb c "."%char = false.
Proof.
  intros Hd. destruct (Ascii.eqb_spec c "."%char) as [-> |];
    [discriminate Hd|reflexivity].
Qed.

Lemma indexOf_digits l : all_digits l -> indexOf "."%char l = None.
Proof.
  induction 1 as [|c l Hc _ IH]; cbn [indexOf]; [reflexivity|].
  now rewrite (digit_is_not_point c Hc), IH.
Qed.

Lemma trim_start_id s :
  match s with [] => True | c :: _ => is_space c = false end ->
  trim_start s = s.
Proof. destruct s as [|c s]; cbn; [reflexivity|]. now intros ->. Qed.

Lemma trim_id s :
  match s with [] => True | c :: _ => is_space c = false end ->
  match rev s with [] => True | c :: _ => is_space c = false end ->
  trim s = s.
Proof.
  intros Hh Hl. unfold trim.
  rewrite (trim_start_id s Hh), (trim_start_id (rev s) Hl).
  apply rev_involutive.
Qed.

Lemma rev_digits_head l r :
  all_digits l -> l <> [] ->
  match rev (r ++ l) with [] => True | c :: _ => is_space c = false end.
Proof.
  intros Hl Hne. rewrite rev_app_distr.
  assert (Hr : all_digits (rev l)) by now apply Forall_rev.
  destruct (rev l) as [|c t] eqn:E.
  - apply (f_equal (@rev ascii)) in E. rewrite rev_involutive in E.
    now contradiction Hne.
  - cbn. inversion Hr; subst. now apply digit_not_space.
Qed.

Lemma match_exponent_exact m sg ds :
  is_exp_marker m = true -> optional_sign sg -> ds <> [] -> all_digits ds ->
  match_exponent (m :: sg ++ ds) = Some (Some (sg ++ ds)).
Proof.
  intros Hm Hsg Hne Hds. cbn [match_exponent]. rewrite Hm.
  destruct (match_sign_app sg ds Hsg) as [m1 Hm1].
  { destruct ds as [|d ds]; [exact I|].
    inversion Hds; subst. now apply digit_not_sign. }
  rewrite Hm1.
  pose proof (span_digits_app ds [] Hds I) as Hspan.
  rewrite app_nil_r in Hspan. rewrite Hspan.
  destruct ds; [now contradiction Hne|reflexivity].
Qed.

(** X16. [from] on a string of digits agrees with [from] on the BigInt the
    digits denote. *)
Theorem from_digits_is_from_bigint ds :
  ds <> [] -> all_digits ds ->
  from_string ds = Ok (from_bigint (BigInt_of_digits ds)).
Proof.
  intros Hne Hds. unfold from_string.
  assert (Htrim : trim ds = ds).
  { apply trim_id.
    - destruct Hds as [|c l Hc _]; [exact I|]. now apply digit_not_space.
    - apply (rev_digits_head ds [] Hds Hne). }
  rewrite Htrim. destruct ds as [|c l] eqn:E; [now contradiction Hne|].
  rewrite <- E in *. unfold regex_match.
  assert (Hsign : match_sign ds = (None, ds)).
  { subst ds. cbn [match_sign]. inversion Hds; subst.
    now rewrite digit_not_sign. }
  rewrite Hsign.
  pose proof (match_mantissa_complete ds [] (mantissa_digits ds Hne Hds)
                exponent_absent) as Hm.
  rewrite app_nil_r in Hm. rewrite Hm. cbn [match_exponent].
  rewrite (indexOf_digits ds Hds).
  unfold from_bigint.
  pose proof (value_bound ds Hds) as Hb.
  destruct (Z.ltb_spec (BigInt_of_digits ds) 0); [lia|reflexivity].
Qed.

Lemma from_digits_is_from_bigint_witness :
  from_string (lit "00120") = Ok (from_bigint 120).
Proof.
  apply (from_digits_is_from_bigint (lit "00120"));
    [discriminate|repeat constructor].
Defined.

Lemma parseInt_exponent_text ex :
  parseInt ((if ex >=? 0 then ["+"%char] else []) ++ toString_int ex) = ex.
Proof.
  unfold toString_int. rewrite Z.geb_leb.
  destruct (Z.leb_spec 0 ex) as [Hp|Hn].
  - destruct (Z.ltb_spec ex 0); [lia|]. cbn [app parseInt].
    change (Ascii.eqb "+" "-") with false. change (Ascii.eqb "+" "+") with true.
    cbv iota. now destruct (nat_toString_spec ex Hp) as (_ & _ & Hv & _).
  - destruct (Z.ltb_spec ex 0); [|lia]. cbn [app parseInt].
    change (Ascii.eqb "-" "-") with true. cbv iota.
    destruct (nat_toString_spec (- ex) ltac:(lia)) as (_ & _ & Hv & _). lia.
Qed.

(** The exponent part of scientific text is an exponent of the grammar. *)
Lemma exponent_suffix_form ex :
  exists sg ds,
    exponent_suffix ex = "e"%char :: sg ++ ds /\
    (if ex >=? 0 then ["+"%char] else []) ++ toString_int ex = sg ++ ds /\
    optional_sign sg /\ ds <> [] /\ all_digits ds.
Proof.
  unfold exponent_suffix, toString_int. rewrite Z.geb_leb.
  destruct (Z.leb_spec 0 ex) as [Hp|Hn].
  - destruct (Z.ltb_spec ex 0); [lia|].
    destruct (nat_toString_spec ex Hp) as (Hd & Hne & _).
    exists ["+"%char], (nat_toString ex).
    repeat split; try assumption. now constructor.
  - destruct (Z.ltb_spec ex 0); [|lia].
    destruct (nat_toString_spec (- ex) ltac:(lia)) as (Hd & Hne & _).
    exists ["-"%char], (nat_toString (- ex)).
    repeat split; try assumption. now constructor.
Qed.

(** The mantissa of scientific text: its shape, and what [from] reads in
    it. *)
Lemma mantissa_form ds :
  ds <> [] -> all_digits ds ->
  mantissa_text (mantissa ds) /\
  (exists c t, mantissa ds = c :: t /\ is_digit c = true) /\
  match indexOf "."%char (mantissa ds) with
  | Some idx =>
      slice (mantissa ds) 0 idx ++ slice_from (mantissa ds) (idx + 1) = ds /\
      strlen (mantissa ds) - idx - 1 = strlen ds - 1
  | None => mantissa ds = ds /\ strlen ds = 1
  end.
Proof.
  intros Hne Hds. destruct ds as [|c t]; [now contradiction Hne|].
  inversion Hds as [|? ? Hc Ht]; subst.
  destruct t as [|c' t]; cbn [mantissa].
  - split; [apply mantissa_digits; [discriminate|assumption]|].
    split; [eauto|].
    rewrite (indexOf_digits [c] Hds). now split.
  - split.
    { apply (mantissa_point [c] (c' :: t)); [|assumption|left; discriminate].
      constructor; [assumption|constructor]. }
    split; [eauto|].
    cbn [indexOf]. rewrite (digit_is_not_point c Hc).
    change (Ascii.eqb "." ".") with true. cbv iota. cbn [Z.add].
    split.
    + rewrite slice_prefix by lia.
      rewrite slice_suffix by (unfold strlen; cbn [List.length]; lia).
      reflexivity.
    + unfold strlen. cbn [List.length]. lia.
Qed.

(** What [from] reads in scientific text: the digits of the mantissa as the
    coefficient, and the exponent less the digits behind the point. *)
Lemma scientific_text_parses (neg : bool) ds ex :
  ds <> [] -> all_digits ds ->
  from_string ((if neg then ["-"%char] else []) ++ mantissa ds ++ exponent_suffix ex) =
  Ok (new_BigNum (BigInt_of_digits ds) (ex - (strlen ds - 1))
                 (if neg then -1 else 1)).
Proof.
  intros Hne Hds.
  destruct (mantissa_form ds Hne Hds) as (Hmt & (c0 & t0 & Hm0 & Hc0) & Hidx).
  destruct (exponent_suffix_form ex) as (sg & dx & Hsuf & Htext & Hsg & Hdxne & Hdx).
  assert (Hex_form : optional_exponent (exponent_suffix ex)).
  { rewrite Hsuf. now apply exponent_present. }
  set (sp := if neg then ["-"%char] else []).
  set (body := mantissa ds ++ exponent_suffix ex).
  assert (Hbody_sign : match_sign body = (None, body)).
  { unfold body. rewrite Hm0. cbn [app match_sign]. now rewrite digit_not_sign. }
  assert (Hmatch : regex_match (sp ++ body) =
            Some (if neg then Some "-"%char else None,
                  mantissa ds, Some (sg ++ dx))).
  { unfold regex_match, sp. destruct neg.
    - cbn [app match_sign]. change (is_sign "-") with true. cbv iota.
      unfold body. rewrite (match_mantissa_complete _ _ Hmt Hex_form).
      rewrite Hsuf. now rewrite match_exponent_exact.
    - cbn [app]. rewrite Hbody_sign.
      unfold body. rewrite (match_mantissa_complete _ _ Hmt Hex_form).
      rewrite Hsuf. now rewrite match_exponent_exact. }
  assert (Htrim : trim (sp ++ body) = sp ++ body).
  { apply trim_id.
    - unfold sp, body. rewrite Hm0.
      destruct neg; cbn [app]; [reflexivity|now apply digit_not_space].
    - unfold body. rewrite Hsuf.
      replace (sp ++ mantissa ds ++ "e"%char :: sg ++ dx)
        with ((sp ++ mantissa ds ++ "e"%char :: sg) ++ dx)
        by (rewrite <- !app_assoc; reflexivity).
      now apply rev_digits_head. }
  unfold from_string. fold sp. fold body. rewrite Htrim.
  destruct (sp ++ body) as [|h tl] eqn:Hs0.
  { unfold body in Hs0. rewrite Hm0 in Hs0.
    destruct sp; discriminate Hs0. }
  rewrite Hmatch.
  rewrite <- Htext, parseInt_exponent_text.
  assert (Hsign : match (if neg then Some "-"%char else None) with
                  | Some c => if Ascii.eqb c "-"%char then -1 else 1
                  | None => 1
                  end = (if neg then -1 else 1)) by (now destruct neg).
  rewrite Hsign.
  destruct (indexOf "."%char (mantissa ds)) as [idx|].
  - destruct Hidx as [Hnum Hafter]. rewrite Hnum, Hafter.
    now replace (match ds with [] => 0 | _ :: _ => BigInt_of_digits ds end)
      with (BigInt_of_digits ds) by (now destruct ds).
  - destruct Hidx as [Hnum Hone]. rewrite Hnum, Hone.
    now rewrite Z.sub_diag, Z.sub_0_r.
Qed.

(** X17. Scientific text parses back to the value it was written from: for
    a canonical [x] with a 32-bit exponent whose coefficient has no more
    digits than [significant], [from(x.toString(significant))] is [x]. *)
Theorem toString_round_trip x significant :
  canonical x -> int32_exponent x ->
  strlen (toString_int (coefficient x)) <= significant ->
  from_string (toString x significant) = Ok x.
Proof.
  intros Hx Hex Hlen. unfold int32_exponent in Hex.
  destruct (canonical_cases x Hx) as [-> | (Hc & Hr & Hs)]; [reflexivity|].
  unfold toString, sign_prefix.
  destruct (Z.eqb_spec (coefficient x) 0); [lia|].
  destruct (Z.leb_spec (strlen (toString_int (coefficient x))) significant); [|lia].
  rewrite toString_int_nonneg in * by lia.
  destruct (nat_toString_spec (coefficient x) ltac:(lia)) as (Hds & Hne & Hval & _).
  rewrite scientific_text_parses by assumption.
  rewrite Hval. f_equal.
  replace (exponent x + (strlen (nat_toString (coefficient x)) - 1)
           - (strlen (nat_toString (coefficient x)) - 1))
    with (exponent x) by lia.
  rewrite new_BigNum_fixed; try assumption.
  - rewrite ToInt32_small by lia.
    destruct x as [c e s]. cbn [coefficient exponent sign] in *.
    destruct Hs as [-> | ->]; reflexivity.
  - destruct (sign x <? 0); [now right|now left].
Qed.

Lemma toString_round_trip_witness :
  from_string (toString (mkBigNum 1686 397 (-1)) 20) = Ok (mkBigNum 1686 397 (-1)).
Proof.
  apply (toString_round_trip (mkBigNum 1686 397 (-1)) 20);
    [canonical_by_computation|canonical_by_computation|].
  vm_compute. intros E; discriminate E.
Defined.

Lemma indexOf_after_digits ip fp :
  all_digits ip ->
  indexOf "."%char (ip ++ "."%char :: fp) = Some (strlen ip).
Proof.
  induction 1 as [|c l Hc _ IH]; cbn [app indexOf].
  - reflexivity.
  - rewrite (digit_is_not_point c Hc), IH. f_equal.
    unfold strlen. cbn [List.length]. lia.
Qed.

Lemma slice_around_point ip fp :
  slice (ip ++ "."%char :: fp) 0 (strlen ip) = ip /\
  slice_from (ip ++ "."%char :: fp) (strlen ip + 1) = fp.
Proof.
  split.
  - rewrite slice_prefix by apply strlen_nonneg.
    unfold strlen. rewrite Nat2Z.id.
    rewrite firstn_app, firstn_all, Nat.sub_diag. cbn. apply app_nil_r.
  - rewrite slice_suffix.
    + unfold strlen. replace (Z.to_nat (Z.of_nat (List.length ip) + 1))
        with (List.length ip + 1)%nat by lia.
      rewrite skipn_app, skipn_all2 by lia.
      replace (List.length ip + 1 - List.length ip)%nat with 1%nat by lia.
      reflexivity.
    + rewrite strlen_app. unfold strlen. cbn [List.length]. lia.
Qed.

(** X18. Fixed-point text parses back to the value it was written from when
    no digit is cut: for a canonical [x] with a 32-bit exponent and a digit
    count [d] with [0 <= d <= 2^31] that covers the fraction
    ([exponent + d >= 0]), [from(x.toFixed(d))] is [x]. *)
Theorem toFixed_round_trip x d :
  canonical x -> int32_exponent x ->
  0 <= d <= 2 ^ 31 -> 0 <= exponent x + d ->
  exists t, toFixed x d = Ok t /\ from_string t = Ok x.
Proof.
  intros Hx Hex Hd Hcover. unfold int32_exponent in Hex.
  destruct (toFixed_digits x d Hx ltac:(lia))
    as (ip & fp & Hout & Hip & Hlz & Hiv & Hfp & Hfl & Hfv).
  pose proof (scaled_magnitude_integer_part x d Hx ltac:(lia)) as Hint.
  exists (sign_prefix x ++ ip ++ "."%char :: fp). split; [exact Hout|].
  assert (Hipne : exists c0 t0, ip = c0 :: t0 /\ is_digit c0 = true).
  { destruct Hlz as [-> | (c0 & t0 & -> & _)]; [eauto|].
    inversion Hip; subst. eauto. }
  destruct Hipne as (c0 & t0 & Eip & Hc0).
  assert (Hmt : mantissa_text (ip ++ "."%char :: fp)).
  { apply mantissa_point; [assumption|assumption|]. left. now rewrite Eip. }
  set (body := ip ++ "."%char :: fp) in *.
  assert (Hbody_sign : match_sign body = (None, body)).
  { unfold body. rewrite Eip. cbn [app match_sign]. now rewrite digit_not_sign. }
  assert (Hmant : match_mantissa body = Some (body, [])).
  { pose proof (match_mantissa_complete body [] Hmt exponent_absent) as H.
    now rewrite app_nil_r in H. }
  assert (Hmatch : regex_match (sign_prefix x ++ body) =
            Some (if sign x <? 0 then Some "-"%char else None, body, None)).
  { unfold regex_match, sign_prefix. destruct (sign x <? 0).
    - cbn [app match_sign]. change (is_sign "-") with true. cbv iota.
      now rewrite Hmant.
    - cbn [app]. now rewrite Hbody_sign, Hmant. }
  assert (Htrim : trim (sign_prefix x ++ body) = sign_prefix x ++ body).
  { apply trim_id.
    - unfold sign_prefix, body. rewrite Eip.
      destruct (sign x <? 0); cbn [app]; [reflexivity|now apply digit_not_space].
    - subst body. destruct fp as [|f0 ft].
      + rewrite app_assoc, rev_app_distr. reflexivity.
      + replace (sign_prefix x ++ ip ++ "."%char :: f0 :: ft)
          with ((sign_prefix x ++ ip ++ ["."%char]) ++ f0 :: ft)
          by (rewrite <- !app_assoc; reflexivity).
        apply rev_digits_head; [assumption|discriminate]. }
  unfold from_string. rewrite Htrim.
  destruct (sign_prefix x ++ body) as [|h tl] eqn:Hs0.
  { unfold body in Hs0. rewrite Eip in Hs0.
    destruct (sign_prefix x); discriminate Hs0. }
  rewrite Hmatch. unfold body.
  rewrite (indexOf_after_digits ip fp Hip).
  destruct (slice_around_point ip fp) as [-> ->].
  replace (match ip ++ fp with [] => 0 | _ :: _ => BigInt_of_digits (ip ++ fp) end)
    with (BigInt_of_digits (ip ++ fp)) by (now destruct (ip ++ fp)).
  rewrite value_app. fold (strlen fp). rewrite Hfl, Hiv, Hfv, <- Hint.
  pose proof (pow10_pos d ltac:(lia)) as Hpd.
  rewrite Z.mul_comm, <- Z.div_mod by lia.
  replace (0 - (strlen (ip ++ "."%char :: fp) - strlen ip - 1)) with (- d)
    by (rewrite strlen_app; unfold strlen in *; cbn [List.length]; lia).
  f_equal.
  unfold scaled_magnitude. destruct (Z.leb_spec 0 (exponent x + d)); [|lia].
  destruct (canonical_cases x Hx) as [-> | (Hc & Hr & Hs)].
  { cbn [coefficient]. rewrite Z.mul_0_l. reflexivity. }
  rewrite constructor_scales; try lia.
  replace (- d + (exponent x + d)) with (exponent x) by lia.
  rewrite new_BigNum_fixed; try assumption.
  - rewrite ToInt32_small by lia.
    destruct x as [c e s]. cbn [coefficient exponent sign] in *.
    destruct Hs as [-> | ->]; reflexivity.
  - destruct (sign x <? 0); [now right|now left].
Qed.

Lemma toFixed_round_trip_witness :
  exists t, toFixed (mkBigNum 123456789 (-4) (-1)) 6 = Ok t /\
            from_string t = Ok (mkBigNum 123456789 (-4) (-1)).
Proof.
  apply (toFixed_round_trip (mkBigNum 123456789 (-4) (-1)) 6);
    [canonical_by_computation|canonical_by_computation|lia|cbn; lia].
Defined.

(** X19. A negative digit count makes [toFixed] throw a RangeError only
    where it repeats "0" that many times: on zero and on values with a
    non-negative exponent.  With a negative exponent it returns text, the
    fraction cut by [slice]. *)
Theorem toFixed_negative_digits x d :
  d < 0 ->
  (coefficient x = 0 \/ 0 <= exponent x -> toFixed x d = Err RangeError) /\
  (coefficient x <> 0 -> exponent x < 0 -> exists t, toFixed x d = Ok t).
Proof.
  intros Hd. unfold toFixed.
  assert (Hz : zeros d = Err RangeError).
  { unfold zeros. destruct (Z.ltb_spec d 0); [reflexivity|lia]. }
  split.
  - intros [Hc|He].
    + rewrite Hc. cbn [Z.eqb]. now rewrite Hz.
    + destruct (coefficient x =? 0); [now rewrite Hz|].
      rewrite Z.geb_leb. destruct (Z.leb_spec 0 (exponent x)); [|lia].
      rewrite zeros_ok by lia. cbn [bind]. now rewrite Hz.
  - intros Hc He.
    destruct (Z.eqb_spec (coefficient x) 0); [lia|].
    rewrite Z.geb_leb. destruct (Z.leb_spec 0 (exponent x)); [lia|].
    destruct (Z.ltb_spec (- exponent x) (strlen (toString_int (coefficient x)))).
    + rewrite zeros_ok by lia. cbn [bind]. eauto.
    + rewrite zeros_ok by lia. cbn [bind].
      rewrite zeros_ok by lia. cbn [bind]. eauto.
Qed.

Lemma toFixed_negative_digits_witness :
  toFixed (mkBigNum 12 3 1) (-1) = Err RangeError /\
  exists t, toFixed (mkBigNum 12345 (-3) 1) (-1) = Ok t.
Proof.
  split.
  - apply (proj1 (toFixed_negative_digits (mkBigNum 12 3 1) (-1) ltac:(lia))).
    right. cbn. lia.
  - apply (proj2 (toFixed_negative_digits (mkBigNum 12345 (-3) 1) (-1) ltac:(lia)));
      cbn; lia.
Defined.

(** ** Multiplication by one, and associativity *)

(** X20. One is the identity of multiplication and zero annihilates: for a
    canonical [x] with a 32-bit exponent, [x.mul(one)] is [x] on either side,
    and for every [x], [x.mul(ZERO)] is ZERO on either side. *)
Theorem mul_one_and_zero x :
  (canonical x -> int32_exponent x ->
   mul x (mkBigNum 1 0 1) = x /\ mul (mkBigNum 1 0 1) x = x) /\
  mul x ZERO = ZERO /\ mul ZERO x = ZERO.
Proof.
  split; [|split].
  - intros Hx Hex. unfold int32_exponent in Hex.
    destruct (canonical_cases x Hx) as [-> | (Hc & Hr & Hs)]; [split; reflexivity|].
    assert (Hcopy : mkBigNum (coefficient x) (ToInt32 (exponent x)) (sign x) = x).
    { rewrite ToInt32_small by lia. now destruct x. }
    split.
    + rewrite mul_fixed; cbn [coefficient exponent sign];
        rewrite ?Z.mul_1_r, ?Z.add_0_r; try assumption; lia.
    + rewrite mul_fixed; cbn [coefficient exponent sign];
        rewrite ?Z.mul_1_l, ?Z.add_0_l; try assumption; lia.
  - unfold mul. change (coefficient ZERO) with 0. cbn [Z.eqb].
    now rewrite orb_true_r.
  - reflexivity.
Qed.

Lemma mul_one_and_zero_witness :
  mul (mkBigNum 37 (-2) (-1)) (mkBigNum 1 0 1) = mkBigNum 37 (-2) (-1).
Proof.
  apply (proj1 (mul_one_and_zero (mkBigNum 37 (-2) (-1))));
    canonical_by_computation.
Defined.

(** A canonical triple is determined by its value. *)
Lemma canonical_unique x y k :
  canonical x -> canonical y -> k <= exponent x -> k <= exponent y ->
  scaled_value x k = scaled_value y k -> x = y.
Proof.
  intros Hx Hy Hkx Hky Hv. unfold scaled_value in Hv.
  pose proof (pow10_pos (exponent x - k) ltac:(lia)) as Hpx.
  pose proof (pow10_pos (exponent y - k) ltac:(lia)) as Hpy.
  destruct (canonical_cases x Hx) as [-> | (Hcx & Hrx & Hsx)];
    destruct (canonical_cases y Hy) as [-> | (Hcy & Hry & Hsy)].
  - reflexivity.
  - exfalso. cbn [coefficient sign] in Hv. destruct Hsy as [E|E]; rewrite E in Hv; nia.
  - exfalso. cbn [coefficient sign] in Hv. destruct Hsx as [E|E]; rewrite E in Hv; nia.
  - assert (Hs : sign x = sign y).
    { destruct Hsx as [Ex|Ex], Hsy as [Ey|Ey]; rewrite Ex, Ey in *; nia. }
    assert (Hm : coefficient x * 10 ^ (exponent x - k) =
                 coefficient y * 10 ^ (exponent y - k)).
    { rewrite Hs in Hv. destruct Hsy as [E|E]; rewrite E in Hv; lia. }
    assert (He : exponent x = exponent y).
    { destruct (Z.lt_trichotomy (exponent x) (exponent y)) as [Hlt | [E | Hgt]];
        [exfalso|exact E|exfalso].
      - apply Hrx.
        replace (exponent y - k) with ((exponent y - exponent x) + (exponent x - k)) in Hm by lia.
        rewrite Z.pow_add_r, Z.mul_assoc in Hm by lia.
        apply Z.mul_reg_r in Hm; [|lia].
        rewrite Hm. apply times_pow10_trailing_zero. lia.
      - apply Hry.
        replace (exponent x - k) with ((exponent x - exponent y) + (exponent y - k)) in Hm by lia.
        rewrite Z.pow_add_r, Z.mul_assoc in Hm by lia.
        apply Z.mul_reg_r in Hm; [|lia].
        rewrite <- Hm. apply times_pow10_trailing_zero. lia. }
    rewrite He in Hm. apply Z.mul_reg_r in Hm; [|lia].
    destruct x, y. cbn [coefficient exponent sign] in *. congruence.
Qed.

Lemma mul_scaled_value x y k :
  canonical x -> canonical y ->
  coefficient x <> 0 -> coefficient y <> 0 ->
  - 2 ^ 31 <= exponent x + exponent y < 2 ^ 31 ->
  k <= exponent x + exponent y ->
  scaled_value (mul x y) k =
    (sign x * coefficient x) * (sign y * coefficient y)
    * 10 ^ (exponent x + exponent y - k) /\
  exponent x + exponent y <= exponent (mul x y) /\
  coefficient (mul x y) <> 0.
Proof.
  intros Hx Hy Hzx Hzy He Hk.
  destruct (canonical_cases x Hx) as [-> | (Hcx & _ & Hsx)]; [now contradiction Hzx|].
  destruct (canonical_cases y Hy) as [-> | (Hcy & _ & Hsy)]; [now contradiction Hzy|].
  unfold mul.
  destruct (Z.eqb_spec (coefficient x) 0); [lia|].
  destruct (Z.eqb_spec (coefficient y) 0); [lia|]. cbn [orb].
  split; [|split].
  - rewrite new_BigNum_scaled_value by (rewrite ToInt32_small; lia).
    rewrite ToInt32_small by lia.
    assert ((coefficient x * coefficient y <? 0) = false) as ->
      by (apply Z.ltb_ge; nia).
    cbn [orb]. rewrite Z.abs_eq by nia.
    destruct Hsx as [Ea|Ea], Hsy as [Eb|Eb]; rewrite Ea, Eb;
      match goal with
      | |- context [?u * ?v =? -1] =>
          let w := eval vm_compute in (u * v =? -1) in
          change (u * v =? -1) with w
      end; cbv iota; ring.
  - rewrite new_BigNum_exponent.
    destruct (Z.eqb_spec (coefficient x * coefficient y) 0); [nia|].
    rewrite ToInt32_small by lia.
    pose proof (stripped_nonneg (coefficient x * coefficient y)). lia.
  - pose proof (new_BigNum_coefficient (coefficient x * coefficient y)
                  (exponent x + exponent y) (sign x * sign y)) as H.
    intros E. rewrite E in H. cbn [Z.mul] in H. nia.
Qed.

Lemma mul_zero_l x y : coefficient x = 0 -> mul x y = ZERO.
Proof. intros H. unfold mul. now rewrite H. Qed.

Lemma mul_zero_r x y : coefficient y = 0 -> mul x y = ZERO.
Proof. intros H. unfold mul. rewrite H. cbn [Z.eqb]. now rewrite orb_true_r. Qed.

(** X21. Multiplication is associative while the exponents fit 32 bits: for
    canonical operands, when the sums [e_a + e_b], [e_b + e_c] and the
    exponent sums of the two outer products are all in [-2^31, 2^31), the
    two groupings give the same object. *)
Theorem mul_associative a b c :
  canonical a -> canonical b -> canonical c ->
  - 2 ^ 31 <= exponent a + exponent b < 2 ^ 31 ->
  - 2 ^ 31 <= exponent b + exponent c < 2 ^ 31 ->
  - 2 ^ 31 <= exponent (mul a b) + exponent c < 2 ^ 31 ->
  - 2 ^ 31 <= exponent a + exponent (mul b c) < 2 ^ 31 ->
  mul (mul a b) c = mul a (mul b c).
Proof.
  intros Ha Hb Hc R1 R2 R3 R4.
  destruct (Z.eq_dec (coefficient a) 0) as [Hza|Hza].
  { now rewrite (mul_zero_l a b Hza), (mul_zero_l a (mul b c) Hza),
      (mul_zero_l ZERO c eq_refl). }
  destruct (Z.eq_dec (coefficient b) 0) as [Hzb|Hzb].
  { now rewrite (mul_zero_r a b Hzb), (mul_zero_l b c Hzb),
      (mul_zero_l ZERO c eq_refl), (mul_zero_r a ZERO eq_refl). }
  destruct (Z.eq_dec (coefficient c) 0) as [Hzc|Hzc].
  { now rewrite (mul_zero_r (mul a b) c Hzc), (mul_zero_r b c Hzc),
      (mul_zero_r a ZERO eq_refl). }
  destruct (mul_scaled_value a b (exponent a + exponent b) Ha Hb Hza Hzb R1 ltac:(lia))
    as (Vab & Eab & Nab).
  destruct (mul_scaled_value b c (exponent b + exponent c) Hb Hc Hzb Hzc R2 ltac:(lia))
    as (Vbc & Ebc & Nbc).
  rewrite Z.sub_diag, Z.mul_1_r in Vab, Vbc.
  set (k := exponent a + exponent b + exponent c).
  destruct (mul_scaled_value (mul a b) c k (mul_canonical a b) Hc Nab Hzc R3
              ltac:(unfold k; lia)) as (V1 & E1 & _).
  destruct (mul_scaled_value a (mul b c) k Ha (mul_canonical b c) Hza Nbc R4
              ltac:(unfold k; lia)) as (V2 & E2 & _).
  apply (canonical_unique _ _ k); try apply mul_canonical; try (unfold k; lia).
  rewrite V1, V2. unfold scaled_value in Vab, Vbc.
  replace (exponent (mul a b) + exponent c - k)
    with (exponent (mul a b) - (exponent a + exponent b)) by (unfold k; lia).
  replace (exponent a + exponent (mul b c) - k)
    with (exponent (mul b c) - (exponent b + exponent c)) by (unfold k; lia).
  set (pab := 10 ^ (exponent (mul a b) - (exponent a + exponent b))) in *.
  set (pbc := 10 ^ (exponent (mul b c) - (exponent b + exponent c))) in *.
  transitivity (sign a * coefficient a * (sign b * coefficient b)
                * (sign c * coefficient c)).
  - rewrite <- Vab. ring.
  - replace (sign a * coefficient a * (sign b * coefficient b)
             * (sign c * coefficient c))
      with (sign a * coefficient a
            * (sign b * coefficient b * (sign c * coefficient c))) by ring.
    rewrite <- Vbc. ring.
Qed.

Lemma mul_associative_witness :
  mul (mul (mkBigNum 2 0 1) (mkBigNum 5 0 (-1))) (mkBigNum 3 1 1) =
  mul (mkBigNum 2 0 1) (mul (mkBigNum 5 0 (-1)) (mkBigNum 3 1 1)).
Proof.
  apply (mul_associative (mkBigNum 2 0 1) (mkBigNum 5 0 (-1)) (mkBigNum 3 1 1));
    try canonical_by_computation;
    split; vm_compute; (reflexivity || (intros E; discriminate E)).
Defined.

(** ** Rounding in [toString] *)

(** [rest[0] >= '5'] says that the dropped digits are at least half a unit
    of the last kept digit. *)
Lemma rounds_up_spec rest :
  all_digits rest -> rest <> [] ->
  rounds_up rest = (10 ^ strlen rest <=? 2 * BigInt_of_digits rest).
Proof.
  intros Hd Hne. destruct rest as [|r0 rt]; [now contradiction Hne|].
  inversion Hd as [|? ? Hr0 Hrt]; subst.
  pose proof (is_digit_range r0 Hr0) as Hrange.
  pose proof (value_bound rt Hrt) as Hb.
  unfold rounds_up, strlen. cbn [BigInt_of_digits List.length].
  rewrite Nat2Z.inj_succ, Z.pow_succ_r by lia.
  change (code "5") with 53. unfold digit_val in *.
  set (P := 10 ^ Z.of_nat (List.length rt)) in *.
  destruct (Z.leb_spec 53 (code r0)), (Z.leb_spec (10 * P)
    (2 * ((code r0 - 48) * P + BigInt_of_digits rt))); try reflexivity; nia.
Qed.

(** X22. [toString] rounds half up to [significant] digits.  When the
    coefficient has more digits than asked for, the text reads back as the
    coefficient cut to [significant] digits, plus one when the dropped
    digits are at least half a unit, with the exponent raised by the number
    of dropped digits (a carry such as 9.99 -> 10.0 included). *)
Theorem toString_rounds_half_up x significant :
  canonical x -> coefficient x <> 0 -> 1 <= significant ->
  significant < strlen (toString_int (coefficient x)) ->
  from_string (toString x significant) =
  Ok (new_BigNum
        (coefficient x / 10 ^ (strlen (toString_int (coefficient x)) - significant)
         + (if 10 ^ (strlen (toString_int (coefficient x)) - significant)
               <=? 2 * (coefficient x
                        mod 10 ^ (strlen (toString_int (coefficient x)) - significant))
            then 1 else 0))
        (exponent x + (strlen (toString_int (coefficient x)) - significant))
        (sign x)).
Proof.
  intros Hx Hnz Hsig Hlen.
  destruct (canonical_cases x Hx) as [-> | (Hc & _ & Hs)]; [now contradiction Hnz|].
  unfold toString, sign_prefix.
  destruct (Z.eqb_spec (coefficient x) 0); [lia|].
  destruct (Z.leb_spec (strlen (toString_int (coefficient x))) significant); [lia|].
  destruct (digits_bound (coefficient x) ltac:(lia)) as (Hub & Hlb & _).
  specialize (Hlb Hc).
  assert (Hts : toString_int (coefficient x) = nat_toString (coefficient x))
    by (apply toString_int_nonneg; lia).
  rewrite Hts in *. clear Hts.
  destruct (nat_toString_spec (coefficient x) ltac:(lia)) as (Hds & Hne & Hval & _).
  set (ds := nat_toString (coefficient x)) in *.
  set (L := strlen ds) in *.
  set (m := L - significant).
  rewrite slice_prefix by lia.
  rewrite slice_suffix by (fold L; lia).
  assert (Hk : (Z.to_nat significant <= List.length ds)%nat)
    by (unfold L, strlen in *; lia).
  destruct (value_split (Z.to_nat significant) ds Hds Hk) as [Hleft Hrest].
  replace (Z.of_nat (List.length ds - Z.to_nat significant)) with m in Hleft, Hrest
    by (unfold m, L, strlen in *; lia).
  rewrite Hval in Hleft, Hrest.
  assert (Hrlen : strlen (skipn (Z.to_nat significant) ds) = m).
  { unfold strlen. rewrite length_skipn. unfold m, L, strlen in *. lia. }
  rewrite rounds_up_spec;
    [|now apply all_digits_skipn
     |intros E; rewrite E in Hrlen; unfold strlen in Hrlen; cbn in Hrlen; lia].
  rewrite Hleft, Hrest, Hrlen.
  pose proof (pow10_pos m ltac:(unfold m; lia)) as Hpm.
  set (q := coefficient x / 10 ^ m).
  set (carry := 10 ^ m <=? 2 * (coefficient x mod 10 ^ m)).
  set (rounded := if carry then q + 1 else q).
  assert (Hq : 10 ^ (significant - 1) <= q < 10 ^ significant).
  { unfold q. split.
    - apply Z.div_le_lower_bound; [lia|].
      rewrite <- Z.pow_add_r by (unfold m; lia).
      now replace (m + (significant - 1)) with (L - 1) by (unfold m; lia).
    - apply Z.div_lt_upper_bound; [lia|].
      rewrite <- Z.pow_add_r by (unfold m; lia).
      now replace (m + significant) with L by (unfold m; lia). }
  pose proof (pow10_pos (significant - 1) ltac:(lia)) as Hps.
  assert (Hr : 10 ^ (significant - 1) <= rounded <= 10 ^ significant)
    by (unfold rounded; destruct carry; lia).
  destruct (digits_bound rounded ltac:(lia)) as (Hrub & Hrlb & _).
  specialize (Hrlb ltac:(lia)).
  assert (Hts : toString_int rounded = nat_toString rounded)
    by (apply toString_int_nonneg; lia).
  rewrite Hts in *. clear Hts.
  destruct (nat_toString_spec rounded ltac:(lia)) as (Hrs & Hrne & Hrval & _).
  set (rs := nat_toString rounded) in *.
  assert (Hlo : significant <= strlen rs).
  { assert (Hp : 10 ^ (significant - 1) < 10 ^ strlen rs) by lia.
    apply Z.pow_lt_mono_r_iff in Hp; [lia|lia|]. unfold strlen. lia. }
  assert (Hhi : strlen rs <= significant + 1).
  { assert (Hp : 10 ^ (strlen rs - 1) <= 10 ^ significant) by lia.
    apply Z.pow_le_mono_r_iff in Hp; lia. }
  assert (Hsign : (if sign x <? 0 then -1 else 1) = sign x)
    by (destruct Hs as [-> | ->]; reflexivity).
  assert (Hsum : q + (if carry then 1 else 0) = rounded)
    by (unfold rounded; destruct carry; lia).
  rewrite Hsum.
  destruct (Z.gtb_spec (strlen rs) significant) as [Hcarry|Hnocarry];
    rewrite scientific_text_parses by assumption;
    rewrite Hrval, Hsign; do 2 f_equal; unfold m; lia.
Qed.

Lemma toString_rounds_half_up_witness :
  from_string (toString (mkBigNum 9996 (-3) (-1)) 3) =
  Ok (new_BigNum 1000 (-2) (-1)).
Proof.
  apply (toString_rounds_half_up (mkBigNum 9996 (-3) (-1)) 3);
    [canonical_by_computation|cbn; lia|lia|vm_compute; reflexivity].
Defined.

(** ** The derived comparisons *)

(** X23. The five predicates built on [cmp] agree with each other on all
    objects: [a < b] is [b > a], [a <= b] is [b >= a], [<=] is the negation
    of [>] and [>=] of [<], [a <= b] holds exactly when [a < b] or [a = b],
    and equality is symmetric. *)
Theorem derived_comparisons_agree a b :
  Derived.lt a b = Derived.gt b a /\
  Derived.lte a b = Derived.gte b a /\
  Derived.lte a b = negb (Derived.gt a b) /\
  Derived.gte a b = negb (Derived.lt a b) /\
  Derived.lte a b = Derived.lt a b || Derived.eq a b /\
  Derived.eq a b = Derived.eq b a.
Proof.
  unfold Derived.lt, Derived.gt, Derived.lte, Derived.gte, Derived.eq.
  destruct (cmp_swap a b) as [Hr ->].
  destruct Hr as [-> | [-> | ->]]; vm_compute; auto 7.
Qed.
